(** * PinkyPromise: a Promises/A+ implementation, verified over a shallow embedding

    The development follows the TypeScript sources of the repository:

    - the final implementation of [PinkyPromise] (the first document of
      [src/unnamed/part_000]): [#notify], [#transition], [#unpack], [#run],
      [#resolve], [#reject], the constructor, [then], [catch] and the static
      [resolve] / [reject];
    - the earlier draft of the class in [src/lib/pinky-promise.ts]
      ([isThenable], [#resolve], [#reject]), in [Module Draft].

    JavaScript objects live in a store ([World]); every operation is a
    computation in a small state-and-exception monad [M], so that a
    [throw], a [try]/[catch] and an exception escaping to the caller are
    all visible in the result of an operation.  Closures created by the
    library are defunctionalised ([Listener], [Callback]); code supplied by
    the user that receives the two settle functions (an executor, a foreign
    [then]) is a [Script] of calls.  Calls to [console.log] are left out:
    they do not touch the state of a promise.

    Values are held as they read: a promise that holds an object holds
    what reading its [then] member gives.  Calling code can write to that
    member between two calls into the library ([assign_world]), and the
    promises that hold the object then hold it as it reads from then on;
    within one call a value does not change.  A callback that the user
    passes to [then] is a function of its argument alone, which returns
    or throws; it does not itself call into the library. *)

From Stdlib Require Import ZArith Ascii String.
From stdpp Require Import base option list pretty.

(** ** Values *)

Abbreviation ref := nat (only parsing).

(** JavaScript values, as far as the library looks at them.  A number is
    integer-valued: [VNumber n] is the Number nearest to [n].  An error
    object is one that the language builds, with its [name] and [message].
    An object or a function is known by its identity and by what reading
    its [then] member gives, and an object also by what converting it to a
    string gives: [VObject] converts as [Object.prototype.toString] does,
    [VPrinted] to a text of its own (an array, a date, an object with its
    own [toString]), and the conversion of [VUnprintable] throws.  An
    instance of [PinkyPromise] is a reference into the store. *)
Inductive Value : Type :=
| VUndefined
| VNull
| VBoolean (b : bool)
| VNumber (n : Z)
| VString (s : string)
| VError (name message : string)
| VPromise (r : ref)
| VObject (id : nat) (then_member : ThenProp)
| VFunction (id : nat) (then_member : ThenProp)
| VPrinted (id : nat) (then_member : ThenProp) (text : string)
| VUnprintable (id : nat) (then_member : ThenProp) (thrown : Value)

(** What [value.then] evaluates to. *)
with ThenProp : Type :=
| ThenMissing
| ThenThrows (e : Value)
| ThenNotCallable
| ThenCallable (body : Script)

(** The body of user code that is handed the two settle functions
    [(resolve, reject)]: it calls them in some order, and returns or
    throws. *)
with Script : Type :=
| SReturn
| SThrow (e : Value)
| SResolve (v : Value) (k : Script)
| SReject (r : Value) (k : Script).

Scheme Value_mut := Induction for Value Sort Prop
  with ThenProp_mut := Induction for ThenProp Sort Prop
  with Script_mut := Induction for Script Sort Prop.
Combined Scheme Value_mutind from Value_mut, ThenProp_mut, Script_mut.

Inductive JsType := TyUndefined | TyObject | TyBoolean | TyNumber | TyString | TyFunction.

Definition typeof (v : Value) : JsType :=
  match v with
  | VUndefined => TyUndefined
  | VNull => TyObject
  | VBoolean _ => TyBoolean
  | VNumber _ => TyNumber
  | VString _ => TyString
  | VError _ _ => TyObject
  | VPromise _ => TyObject
  | VObject _ _ | VPrinted _ _ _ | VUnprintable _ _ _ => TyObject
  | VFunction _ _ => TyFunction
  end.

(** [ToBoolean]: the test [value && ...]. *)
Definition truthy (v : Value) : bool :=
  match v with
  | VUndefined | VNull => false
  | VBoolean b => b
  | VNumber n => negb (n =? 0)%Z
  | VString s => negb (String.eqb s "")
  | _ => true
  end%string.

(** The outcome of calling a pure user callback. *)
Inductive Completion := Return (v : Value) | Throw (e : Value).

(** An argument that the code tests with [typeof x === "function"]:
    a function, given by its behaviour, or any other value (a function is
    always passed as [Callable]). *)
Inductive Arg (F : Type) : Type :=
| NotCallable (v : Value)
| Callable (f : F).
Arguments NotCallable {F} v.
Arguments Callable {F} f.

(** ** The store *)

(** [type PromiseState<T>]. *)
Inductive PromiseState :=
| Pending
| Fulfilled (value : Value)
| Rejected (reason : Value).

Definition is_pending (s : PromiseState) : bool :=
  match s with Pending => true | _ => false end.

(** Functions handed to [then]: a user function, or one of the two arrows
    that [#unpack] builds around a promise (lines 147 and 148). *)
Inductive Callback :=
| CbUser (f : Value → Completion)
| CbUnpack (pinkyPromise : ref)
| CbTransitionRejected (pinkyPromise : ref).

(** Entries of [#fulfilledListeners] and [#rejectedListeners]: the arrow
    around [#run] (lines 266 and 275), or the [resolve] / [reject] of the
    derived promise (lines 271 and 280). *)
Inductive Listener :=
| LRun (output : ref) (callback : Callback)
| LResolve (output : ref)
| LReject (output : ref).

Record Promise := mkPromise {
  state : PromiseState;
  fulfilledListeners : list Listener;
  rejectedListeners : list Listener
}.

(** A unit of work given to [queueMicrotask]: the listener, and the
    promise whose [#state] the arrow reads when it runs. *)
Inductive Microtask :=
| TaskFulfilled (listener : Listener) (source : ref)
| TaskRejected (listener : Listener) (source : ref).

Record World := mkWorld {
  heap : list Promise;
  latches : list bool;
  microtasks : list Microtask
}.

Definition empty_world : World := mkWorld [] [] [].

Definition set_heap (h : list Promise) (w : World) : World :=
  mkWorld h (latches w) (microtasks w).
Definition set_latches (l : list bool) (w : World) : World :=
  mkWorld (heap w) l (microtasks w).
Definition set_microtasks (q : list Microtask) (w : World) : World :=
  mkWorld (heap w) (latches w) q.

Definition fresh_promise : Promise := mkPromise Pending [] [].

Definition state_of (p : ref) (w : World) : PromiseState :=
  match heap w !! p with Some P => state P | None => Pending end.

Definition fulfilled_of (p : ref) (w : World) : list Listener :=
  match heap w !! p with Some P => fulfilledListeners P | None => [] end.

Definition rejected_of (p : ref) (w : World) : list Listener :=
  match heap w !! p with Some P => rejectedListeners P | None => [] end.

(** ** The monad of operations *)

Inductive Result (A : Type) : Type :=
| Normal (a : A)
| Thrown (e : Value).
Arguments Normal {A} a.
Arguments Thrown {A} e.

(** ** Conversion to a string *)

(** The Number nearest to the integer [m], for [0 ≤ m]: a Number keeps 53
    significant bits, and a tie goes to the even neighbour. *)
Definition nearest_number (m : Z) : Z :=
  let b := Z.log2 m in
  if (b <? 53)%Z then m
  else
    let sh := (b - 52)%Z in
    let q := Z.shiftr m sh in
    let r := (m - Z.shiftl q sh)%Z in
    let half := Z.shiftl 1 (sh - 1) in
    Z.shiftl (if (half <? r)%Z || ((r =? half)%Z && Z.odd q) then q + 1 else q)%Z sh.

(** [Number::toString] writes the fewest digits that still denote the
    Number: the multiples of [10 ^ (d - k)] next to [x] are the candidates
    with [k] digits, and of two that fit the nearer one is taken. *)
Definition shortest_of (x : Z) (k : nat) : option Z :=
  let d := String.length (pretty x) in
  let unit := (10 ^ Z.of_nat (d - k))%Z in
  let lo := (x / unit * unit)%Z in
  let hi := (lo + unit)%Z in
  match (nearest_number lo =? x)%Z, (nearest_number hi =? x)%Z with
  | true, true =>
      Some (if (x - lo <? hi - x)%Z then lo
            else if (hi - x <? x - lo)%Z then hi
            else if Z.even (lo / unit) then lo else hi)
  | true, false => Some lo
  | false, true => Some hi
  | false, false => None
  end.

Fixpoint shortest_from (x : Z) (k fuel : nat) : Z :=
  match fuel with
  | 0 => x
  | S fuel' =>
      match shortest_of x k with
      | Some c => c
      | None => shortest_from x (S k) fuel'
      end
  end.

Fixpoint strip_zeros (s : string) : string :=
  match s with
  | EmptyString => EmptyString
  | String a rest =>
      match strip_zeros rest with
      | EmptyString => if Ascii.eqb a "0"%char then EmptyString else String a EmptyString
      | rest' => String a rest'
      end
  end.

(** A positive finite Number: plain digits up to 21 of them, and the
    exponent form beyond. *)
Definition positive_text (x : Z) : string :=
  let digits := pretty (shortest_from x 1 17) in
  let n := String.length digits in
  if (n <=? 21)%nat then digits
  else
    match strip_zeros digits with
    | String a EmptyString => String a EmptyString +:+ "e+" +:+ pretty (n - 1)
    | String a rest => String a ("." +:+ rest) +:+ "e+" +:+ pretty (n - 1)
    | EmptyString => digits
    end%string.

Definition number_text (n : Z) : string :=
  if (n =? 0)%Z then "0"%string
  else
    let x := nearest_number (Z.abs n) in
    if (2 ^ 1024 <=? x)%Z
    then (if (n <? 0)%Z then "-Infinity" else "Infinity")%string
    else ((if (n <? 0)%Z then "-" else "") +:+ positive_text x)%string.

(** [Error.prototype.toString]. *)
Definition error_text (name message : string) : string :=
  if String.eqb name "" then message
  else if String.eqb message "" then name
  else (name +:+ ": " +:+ message)%string.

(** What a template literal does with a value: it converts it to a
    string, which for an object runs code of the object and may throw.
    The text of a function is its source, which is not kept here: no
    function is ever converted, since the constructor tests [typeof]
    first. *)
Definition display (v : Value) : Result string :=
  match v with
  | VUndefined => Normal "undefined"
  | VNull => Normal "null"
  | VBoolean true => Normal "true"
  | VBoolean false => Normal "false"
  | VNumber n => Normal (number_text n)
  | VString s => Normal s
  | VError name message => Normal (error_text name message)
  | VPromise _ | VObject _ _ => Normal "[object Object]"
  | VFunction _ _ => Normal "function"
  | VPrinted _ _ text => Normal text
  | VUnprintable _ _ thrown => Thrown thrown
  end%string.

Definition M (A : Type) : Type := World → Result A * World.

Definition ret {A} (a : A) : M A := λ w, (Normal a, w).

Definition bind {A B} (m : M A) (k : A → M B) : M B :=
  λ w, match m w with
       | (Normal a, w') => k a w'
       | (Thrown e, w') => (Thrown e, w')
       end.

Definition throw {A} (e : Value) : M A := λ w, (Thrown e, w).

Definition try_catch {A} (m : M A) (handler : Value → M A) : M A :=
  λ w, match m w with
       | (Normal a, w') => (Normal a, w')
       | (Thrown e, w') => handler e w'
       end.

(** A computation that does not touch the store. *)
Definition lift {A} (r : Result A) : M A := λ w, (r, w).

Definition gets {A} (f : World → A) : M A := λ w, (Normal (f w), w).
Definition modify (f : World → World) : M unit := λ w, (Normal tt, f w).

Declare Scope js_scope.
Delimit Scope js_scope with js.
Notation "'let*' x ':=' m 'in' k" := (bind m (λ x, k))
  (at level 10, x name, m at level 100, k at level 200,
   format "'[v' 'let*'  x  ':='  m  'in' '/' k ']'") : js_scope.
Notation "m '>>' k" := (bind m (λ _, k))
  (at level 100, k at level 200, right associativity) : js_scope.
Local Open Scope js_scope.

Definition world_after {A} (m : M A) (w : World) : World := snd (m w).
Definition result_of {A} (m : M A) (w : World) : Result A := fst (m w).

(** ** Store primitives *)

Definition set_state (s : PromiseState) (P : Promise) : Promise :=
  mkPromise s (fulfilledListeners P) (rejectedListeners P).
Definition push_fulfilled (l : Listener) (P : Promise) : Promise :=
  mkPromise (state P) (fulfilledListeners P ++ [l]) (rejectedListeners P).
Definition push_rejected (l : Listener) (P : Promise) : Promise :=
  mkPromise (state P) (fulfilledListeners P) (rejectedListeners P ++ [l]).
Definition clear_listeners (P : Promise) : Promise :=
  mkPromise (state P) [] [].

Definition update (p : ref) (f : Promise → Promise) : M unit :=
  modify (λ w, set_heap (alter f p (heap w)) w).

(** Field initialisers of a new instance (lines 61 to 63). *)
Definition alloc : M ref :=
  λ w, (Normal (length (heap w)), set_heap (heap w ++ [fresh_promise]) w).

Definition queueMicrotask (t : Microtask) : M unit :=
  modify (λ w, set_microtasks (microtasks w ++ [t]) w).

(** [let called = false]: a variable captured by two arrows is a cell. *)
Definition new_latch : M nat :=
  λ w, (Normal (length (latches w)), set_latches (latches w ++ [false]) w).
Definition read_latch (c : nat) : M bool :=
  gets (λ w, default false (latches w !! c)).
Definition write_latch (c : nat) (b : bool) : M unit :=
  modify (λ w, set_latches (<[c:=b]> (latches w)) w).

Fixpoint forEach {A} (l : list A) (f : A → M unit) : M unit :=
  match l with
  | [] => ret tt
  | x :: l' => f x >> forEach l' f
  end.

(** ** The final implementation *)

(** [#notify] (lines 80 to 108). *)
Definition notify (this : ref) : M unit :=
  let* s := gets (state_of this) in
  match s with
  | Pending => ret tt
  | Fulfilled _ =>
      let* ls := gets (fulfilled_of this) in
      forEach ls (λ listener, queueMicrotask (TaskFulfilled listener this)) >>
      update this clear_listeners
  | Rejected _ =>
      let* ls := gets (rejected_of this) in
      forEach ls (λ listener, queueMicrotask (TaskRejected listener this)) >>
      update this clear_listeners
  end.

(** [#transition] (lines 115 to 124). *)
Definition transition (pinkyPromise : ref) (s : PromiseState) : M unit :=
  let* cur := gets (state_of pinkyPromise) in
  if is_pending cur then
    update pinkyPromise (set_state s) >> notify pinkyPromise
  else ret tt.

(** [#reject] (lines 247 to 250). *)
Definition reject_fn (this : ref) (reason : Value) : M unit :=
  transition this (Rejected reason).

(** The constructor (lines 65 to 75).  A callable executor is given by what
    it does with the settle functions of the instance it is called for. *)
Definition construct (executor : Arg (ref → M unit)) : M ref :=
  match executor with
  | NotCallable v =>
      let* text := lift (display v) in
      throw (VError "TypeError" (text +:+ " is not a function")%string)
  | Callable body =>
      let* this := alloc in
      try_catch (body this) (λ executorError, reject_fn this executorError) >>
      ret this
  end.

(** [then] (lines 252 to 287).  The executor of [output] is the arrow of
    line 264; its [resolve] and [reject] are the settle functions of
    [output] itself. *)
Definition then_ (that : ref) (onfulfilled onrejected : Arg Callback) : M ref :=
  construct (Callable (λ output,
    update that (push_fulfilled
      match onfulfilled with
      | Callable f => LRun output f
      | NotCallable _ => LResolve output
      end) >>
    update that (push_rejected
      match onrejected with
      | Callable f => LRun output f
      | NotCallable _ => LReject output
      end) >>
    notify that)).

(** [catch] (lines 295 to 302). *)
Definition catch_ (this : ref) (onrejected : Arg Callback) : M ref :=
  then_ this (NotCallable VUndefined) onrejected.

Definition cycle_error : Value :=
  VError "TypeError" "Chaining cycle detected for promise"%string.

(** [Object.is(value, promise)] for a promise of the store. *)
Definition is_this (value : Value) (this : ref) : bool :=
  match value with
  | VPromise q => bool_decide (q = this)
  | _ => false
  end.

(** Reading [value.then] on a value that the final class does not build:
    error objects and primitives have no such member, and neither has an
    instance of the draft class. *)
Definition then_member (value : Value) : ThenProp :=
  match value with
  | VObject _ t | VFunction _ t | VPrinted _ t _ | VUnprintable _ t _ => t
  | _ => ThenMissing
  end.

Definition function_or_object (t : JsType) : bool :=
  match t with TyFunction | TyObject => true | _ => false end.

(** [#unpack] (lines 130 to 211), with [call_then] for the call
    [then.call(value, ..., ...)] of line 176: the two arrows it passes are
    guarded by the cell [called].  The inner [match] on [value] reads its
    [then] member; an error object has none. *)
Fixpoint unpack (pinkyPromise : ref) (value : Value) {struct value} : M unit :=
  let* cur := gets (state_of pinkyPromise) in
  if negb (is_pending cur) then ret tt
  else if is_this value pinkyPromise then
    transition pinkyPromise (Rejected cycle_error)
  else
    match value with
    | VPromise q =>
        try_catch
          (then_ q (Callable (CbUnpack pinkyPromise))
                   (Callable (CbTransitionRejected pinkyPromise)) >> ret tt)
          (λ reason, transition pinkyPromise (Rejected reason))
    | _ =>
        if truthy value && function_or_object (typeof value) then
          match value with
          | VObject _ t | VFunction _ t | VPrinted _ t _ | VUnprintable _ t _ =>
              match t with
              | ThenThrows reason => transition pinkyPromise (Rejected reason)
              | ThenCallable body =>
                  let* called := new_latch in
                  try_catch (call_then pinkyPromise called body)
                    (λ reason,
                       let* c := read_latch called in
                       if c then ret tt
                       else write_latch called true >>
                            transition pinkyPromise (Rejected reason))
              | ThenMissing | ThenNotCallable =>
                  transition pinkyPromise (Fulfilled value)
              end
          | _ => transition pinkyPromise (Fulfilled value)
          end
        else transition pinkyPromise (Fulfilled value)
    end
with call_then (pinkyPromise : ref) (called : nat) (body : Script) {struct body} : M unit :=
  match body with
  | SReturn => ret tt
  | SThrow e => throw e
  | SResolve val k =>
      (let* c := read_latch called in
       if c then ret tt
       else write_latch called true >> unpack pinkyPromise val) >>
      call_then pinkyPromise called k
  | SReject reason k =>
      (let* c := read_latch called in
       if c then ret tt
       else write_latch called true >>
            transition pinkyPromise (Rejected reason)) >>
      call_then pinkyPromise called k
  end.

(** [#resolve] (lines 239 to 242). *)
Definition resolve_fn (this : ref) (value : Value) : M unit :=
  unpack this value.

(** The two arrows of lines 178 and 184, for a caller that kept them and
    calls them after [then.call] has returned. *)
Definition thenable_onfulfilled (pinkyPromise : ref) (called : nat) (val : Value) : M unit :=
  let* c := read_latch called in
  if c then ret tt
  else write_latch called true >> unpack pinkyPromise val.

Definition thenable_onrejected (pinkyPromise : ref) (called : nat) (reason : Value) : M unit :=
  let* c := read_latch called in
  if c then ret tt
  else write_latch called true >> transition pinkyPromise (Rejected reason).

(** Calling a function that was handed to [then]. *)
Definition call_callback (callback : Callback) (value : Value) : M Value :=
  match callback with
  | CbUser f =>
      match f value with
      | Return v => ret v
      | Throw e => throw e
      end
  | CbUnpack p => unpack p value >> ret VUndefined
  | CbTransitionRejected p => transition p (Rejected value) >> ret VUndefined
  end.

(** [#run] (lines 216 to 232). *)
Definition run (value : Value) (promise : ref) (callback : Callback) : M unit :=
  let* resolvable :=
    try_catch
      (let* r := call_callback callback value in ret (Some r))
      (λ reason, transition promise (Rejected reason) >> ret None) in
  match resolvable with
  | Some r => unpack promise r
  | None => ret tt
  end.

Definition call_listener (listener : Listener) (value : Value) : M unit :=
  match listener with
  | LRun output callback => run value output callback
  | LResolve output => resolve_fn output value
  | LReject output => reject_fn output value
  end.

(** The member [value] (resp. [reason]) of a state object; [undefined]
    when the state object has no such member. *)
Definition value_member (s : PromiseState) : Value :=
  match s with Fulfilled v => v | _ => VUndefined end.
Definition reason_member (s : PromiseState) : Value :=
  match s with Rejected r => r | _ => VUndefined end.

(** The arrows given to [queueMicrotask] (lines 86 and 94). *)
Definition run_microtask (t : Microtask) : M unit :=
  match t with
  | TaskFulfilled listener source =>
      let* s := gets (state_of source) in call_listener listener (value_member s)
  | TaskRejected listener source =>
      let* s := gets (state_of source) in call_listener listener (reason_member s)
  end.

(** The host takes the oldest microtask and runs it to completion. *)
Definition run_next : M unit :=
  λ w, match microtasks w with
       | [] => (Normal tt, w)
       | t :: q => run_microtask t (set_microtasks q w)
       end.

Definition tick (w : World) : World := world_after run_next w.

Definition drain (n : nat) (w : World) : World := Nat.iter n tick w.

(** An executor written by the user: [executor(this.#resolve, this.#reject)]. *)
Fixpoint call_executor (this : ref) (body : Script) : M unit :=
  match body with
  | SReturn => ret tt
  | SThrow e => throw e
  | SResolve v k => resolve_fn this v >> call_executor this k
  | SReject r k => reject_fn this r >> call_executor this k
  end.


(** [new PinkyPromise(executor)] for an executor supplied by the user. *)
Definition new_PinkyPromise (executor : Arg Script) : M ref :=
  construct
    match executor with
    | NotCallable v => NotCallable v
    | Callable body => Callable (λ this, call_executor this body)
    end.

(** The static [resolve] and [reject] (lines 48 to 50 and 57 to 59). *)
Definition static_resolve (value : Value) : M ref :=
  construct (Callable (λ this, resolve_fn this value)).

Definition static_reject (reason : Value) : M ref :=
  construct (Callable (λ this, reject_fn this reason)).

(** ** What calling code can do *)

(** A callback written by the user, as [then] receives it. *)
Definition user_handler (a : Arg (Value → Completion)) : Arg Callback :=
  match a with
  | NotCallable v => NotCallable v
  | Callable f => Callable (CbUser f)
  end.

(** The calls that code outside the class can make: the constructor, the
    methods, the static functions, the settle functions that an executor
    received, the two arrows that a foreign [then] received, and the host
    running the next microtask. *)
Inductive Operation :=
| OpNew (executor : Arg Script)
| OpThen (p : ref) (onfulfilled onrejected : Arg (Value → Completion))
| OpCatch (p : ref) (onrejected : Arg (Value → Completion))
| OpStaticResolve (value : Value)
| OpStaticReject (reason : Value)
| OpResolve (p : ref) (value : Value)
| OpReject (p : ref) (reason : Value)
| OpArrowFulfilled (p : ref) (called : nat) (val : Value)
| OpArrowRejected (p : ref) (called : nat) (reason : Value)
| OpMicrotask.

Definition perform (op : Operation) : M unit :=
  match op with
  | OpNew executor => new_PinkyPromise executor >> ret tt
  | OpThen p onF onR => then_ p (user_handler onF) (user_handler onR) >> ret tt
  | OpCatch p onR => catch_ p (user_handler onR) >> ret tt
  | OpStaticResolve value => static_resolve value >> ret tt
  | OpStaticReject reason => static_reject reason >> ret tt
  | OpResolve p value => resolve_fn p value
  | OpReject p reason => reject_fn p reason
  | OpArrowFulfilled p called val => thenable_onfulfilled p called val
  | OpArrowRejected p called reason => thenable_onrejected p called reason
  | OpMicrotask => run_next
  end.

(** ** The draft of [src/lib/pinky-promise.ts] *)

Module Draft.

(** The draft's [PromiseState]: a pending state may carry a [thenable]. *)
Inductive DraftState :=
| DPending (thenable : option Value)
| DFulfilled (value : Value)
| DRejected (reason : Value).

(** [isThenable] (lines 31 to 37): the conjunction is evaluated left to
    right, and reading [then] may throw. *)
Definition isThenable (value : Value) : Result bool :=
  match typeof value with
  | TyObject =>
      match value with
      | VNull => Normal false
      | _ =>
          match then_member value with
          | ThenThrows e => Thrown e
          | ThenCallable _ => Normal true
          | ThenMissing | ThenNotCallable => Normal false
          end
      end
  | _ => Normal false
  end.

Definition settable (s : DraftState) : bool :=
  match s with DPending None => true | _ => false end.

(** [#reject] (lines 112 to 117). *)
Definition reject_fn (reason : Value) (s : DraftState) : Result unit * DraftState :=
  if settable s then (Normal tt, DRejected reason) else (Normal tt, s).

(** [#resolve] (lines 95 to 110), with [call_then] for
    [value.then(this.#resolve, this.#reject)]. *)
Fixpoint resolve_fn (this : ref) (value : Value) (s : DraftState) {struct value}
  : Result unit * DraftState :=
  if settable s then
    match isThenable value with
    | Thrown e => (Thrown e, s)
    | Normal true =>
        if is_this value this then (Thrown cycle_error, s)
        else
          match value with
          | VObject _ (ThenCallable body) | VPrinted _ (ThenCallable body) _
          | VUnprintable _ (ThenCallable body) _ => call_then this body s
          | _ => (Normal tt, s)
          end
    | Normal false => (Normal tt, DFulfilled value)
    end
  else (Normal tt, s)
with call_then (this : ref) (body : Script) (s : DraftState) {struct body}
  : Result unit * DraftState :=
  match body with
  | SReturn => (Normal tt, s)
  | SThrow e => (Thrown e, s)
  | SResolve v k =>
      match resolve_fn this v s with
      | (Normal _, s') => call_then this k s'
      | (Thrown e, s') => (Thrown e, s')
      end
  | SReject r k =>
      match reject_fn r s with
      | (Normal _, s') => call_then this k s'
      | (Thrown e, s') => (Thrown e, s')
      end
  end.


(** The draft's constructor (lines 75 to 85): the executor is given by
    what it does with the settle functions of the new instance [this]. *)
Definition construct (executor : Arg (DraftState → Result unit * DraftState))
  : Result DraftState :=
  match executor with
  | NotCallable v =>
      match display v with
      | Normal text => Thrown (VError "TypeError" (text +:+ " is not a function")%string)
      | Thrown e => Thrown e
      end
  | Callable body =>
      match body (DPending None) with
      | (Normal _, s) => Normal s
      | (Thrown executorError, s) => Normal (snd (reject_fn executorError s))
      end
  end.

(** [new PinkyPromise(executor)] of the draft for an executor of the user. *)
Definition new_PinkyPromise (this : ref) (executor : Arg Script) : Result DraftState :=
  construct
    match executor with
    | NotCallable v => NotCallable v
    | Callable body => Callable (call_then this body)
    end.

(** The draft's static [resolve] and [reject] (lines 58 to 69). *)
Definition static_resolve (this : ref) (value : Value) : Result DraftState :=
  construct (Callable (resolve_fn this value)).

Definition static_reject (reason : Value) : Result DraftState :=
  construct (Callable (reject_fn reason)).

End Draft.

(** ** The worlds that the operations lead to *)

(** What the constructor throws for an executor that is not a function:
    the [TypeError], or what the conversion of the executor to a string
    throws before the error is built. *)
Definition not_a_function (executor : Value) : Value :=
  match display executor with
  | Normal text => VError "TypeError" (text +:+ " is not a function")%string
  | Thrown e => e
  end.

(** The world after [#notify]. *)
Definition notify_world (this : ref) (w : World) : World :=
  match state_of this w with
  | Pending => w
  | Fulfilled _ =>
      set_heap (alter clear_listeners this (heap w))
        (set_microtasks
           (microtasks w ++ map (λ l, TaskFulfilled l this) (fulfilled_of this w)) w)
  | Rejected _ =>
      set_heap (alter clear_listeners this (heap w))
        (set_microtasks
           (microtasks w ++ map (λ l, TaskRejected l this) (rejected_of this w)) w)
  end.

(** The world after [#transition]. *)
Definition transition_world (p : ref) (s : PromiseState) (w : World) : World :=
  if is_pending (state_of p w)
  then notify_world p (set_heap (alter (set_state s) p (heap w)) w)
  else w.

(** The entries that [then] appends for its two arguments. *)
Definition fulfilled_entry (output : ref) (onfulfilled : Arg Callback) : Listener :=
  match onfulfilled with
  | Callable f => LRun output f
  | NotCallable _ => LResolve output
  end.

Definition rejected_entry (output : ref) (onrejected : Arg Callback) : Listener :=
  match onrejected with
  | Callable f => LRun output f
  | NotCallable _ => LReject output
  end.

(** The world after [then]. *)
Definition then_world (that : ref) (onfulfilled onrejected : Arg Callback) (w : World) : World :=
  let output := length (heap w) in
  notify_world that
    (set_heap
       (alter (push_rejected (rejected_entry output onrejected)) that
          (alter (push_fulfilled (fulfilled_entry output onfulfilled)) that
             (heap w ++ [fresh_promise]))) w).

(** *** The microtasks that [#notify] schedules *)

Definition scheduled (this : ref) (w : World) : list Microtask :=
  match state_of this w with
  | Pending => []
  | Fulfilled _ => map (λ l, TaskFulfilled l this) (fulfilled_of this w)
  | Rejected _ => map (λ l, TaskRejected l this) (rejected_of this w)
  end.

(** A transition that finds the promise pending. *)
Definition settle_world (p : ref) (s : PromiseState) (w : World) : World :=
  notify_world p (set_heap (alter (set_state s) p (heap w)) w).

(** ** Plain candidates *)

(** Candidates that [#unpack] takes as a plain value. *)
Definition plain (v : Value) : bool :=
  match v with
  | VPromise _ => false
  | _ =>
      match then_member v with
      | ThenMissing | ThenNotCallable => true
      | ThenThrows _ | ThenCallable _ => false
      end
  end.

(** The handler of the [try] around [then.call] (lines 194 to 202). *)
Definition then_call_failed (p : ref) (called : nat) (reason : Value) : M unit :=
  let* c := read_latch called in
  if c then ret tt
  else write_latch called true >> transition p (Rejected reason).

(** ** Runs of the library as sequences of elementary changes *)

Definition callback_targets (cb : Callback) : list ref :=
  match cb with
  | CbUser _ => []
  | CbUnpack p | CbTransitionRejected p => [p]
  end.

(** The promises that a listener can settle when it is called. *)
Definition listener_targets (l : Listener) : list ref :=
  match l with
  | LRun output cb => output :: callback_targets cb
  | LResolve output | LReject output => [output]
  end.

Definition arg_targets (a : Arg Callback) : list ref :=
  match a with
  | Callable cb => callback_targets cb
  | NotCallable _ => []
  end.

Definition task_listener (t : Microtask) : Listener :=
  match t with TaskFulfilled l _ | TaskRejected l _ => l end.

(** A state that a transition may install: terminal, and never fulfilled
    with something that would have to be unwrapped. *)
Definition settles (s : PromiseState) : Prop :=
  match s with
  | Pending => False
  | Fulfilled v => plain v = true
  | Rejected _ => True
  end.

(** [steps T S w w']: [w'] is reached from [w] by settling pending promises
    among [T] with states among [S], by calls of [then] whose callbacks
    target promises among [T], and by allocating a promise, or allocating
    or setting a latch. *)
Inductive steps (T : ref → Prop) (S : PromiseState → Prop) : World → World → Prop :=
| steps_done w : steps T S w w
| steps_settle p s w w' :
    T p → S s → settles s → state_of p w = Pending →
    steps T S (settle_world p s w) w' → steps T S w w'
| steps_then q onF onR w w' :
    (∀ x, x ∈ arg_targets onF ++ arg_targets onR → T x) →
    steps T S (then_world q onF onR w) w' → steps T S w w'
| steps_alloc w w' :
    steps T S (set_heap (heap w ++ [fresh_promise]) w) w' → steps T S w w'
| steps_new_latch w w' :
    steps T S (set_latches (latches w ++ [false]) w) w' → steps T S w w'
| steps_set_latch c w w' :
    steps T S (set_latches (<[c:=true]> (latches w)) w) w' → steps T S w w'.

(** The states that [#unpack] can give a pending promise, read off the
    candidate. *)
Fixpoint may_settle (p : ref) (v : Value) (s : PromiseState) {struct v} : Prop :=
  if is_this v p then s = Rejected cycle_error
  else
    match v with
    | VPromise _ => False
    | VObject _ t | VFunction _ t | VPrinted _ t _ | VUnprintable _ t _ =>
        match t with
        | ThenThrows e => s = Rejected e
        | ThenCallable body => script_may_settle p body s
        | ThenMissing | ThenNotCallable => s = Fulfilled v
        end
    | _ => s = Fulfilled v
    end
with script_may_settle (p : ref) (body : Script) (s : PromiseState) {struct body} : Prop :=
  match body with
  | SReturn => False
  | SThrow e => s = Rejected e
  | SResolve v k => may_settle p v s ∨ script_may_settle p k s
  | SReject r k => s = Rejected r ∨ script_may_settle p k s
  end.

(** What a run of the resolution procedure on [p] is made of. *)
Definition unpack_runs (v : Value) : Prop :=
  ∀ p w, ∃ w', unpack p v w = (Normal tt, w') ∧ steps (eq p) (may_settle p v) w w'.

Definition call_then_runs (body : Script) : Prop :=
  ∀ p called w, ∃ r w',
    call_then p called body w = (r, w')
    ∧ steps (eq p) (script_may_settle p body) w w'
    ∧ (∀ e, r = Thrown e → script_may_settle p body (Rejected e)).

(** ** The object behind a reference *)

(** A reference that is not allocated yet reads as the promise that its
    allocation will create. *)
Definition promise_of (x : ref) (w : World) : Promise :=
  default fresh_promise (heap w !! x).

Definition clear_if_settled (P : Promise) : Promise :=
  if is_pending (state P) then P else clear_listeners P.


(** The queue-state invariant: a settled promise holds no listener. *)
Definition queue_inv (w : World) : Prop :=
  ∀ x, state_of x w ≠ Pending → fulfilled_of x w = [] ∧ rejected_of x w = [].

(** Every fulfilled promise holds a value without a [then] that is
    callable or that throws. *)
Definition plain_fulfilled (w : World) : Prop :=
  ∀ x v, state_of x w = Fulfilled v → plain v = true.

(** ** Operations as runs *)

Definition anything : PromiseState → Prop := λ _, True.

(** [m] may throw, and whatever it does is a run that settles promises
    among [T] only. *)
Definition runs_within {A} (T : ref → Prop) (m : M A) : Prop :=
  ∀ w, ∃ r w', m w = (r, w') ∧ steps T anything w w'.

(** [m] returns normally, and what it does is such a run. *)
Definition returns_within {A} (T : ref → Prop) (m : M A) : Prop :=
  ∀ w, ∃ a w', m w = (Normal a, w') ∧ steps T anything w w'.

Definition targets_of (l : Listener) : ref → Prop := λ x, x ∈ listener_targets l.

(** ** Where a rejection reason comes from *)

(** The values that a candidate hands over as a failure: what reading its
    [then] throws, what its [then] throws or passes to the rejecting
    arrow, and the same for the values it passes to the resolving arrow. *)
Fixpoint supplied_reasons (v : Value) : list Value :=
  match v with
  | VObject _ t | VFunction _ t | VPrinted _ t _ | VUnprintable _ t _ =>
      match t with
      | ThenThrows e => [e]
      | ThenCallable body => script_reasons body
      | ThenMissing | ThenNotCallable => []
      end
  | _ => []
  end
with script_reasons (body : Script) : list Value :=
  match body with
  | SReturn => []
  | SThrow e => [e]
  | SResolve v k => supplied_reasons v ++ script_reasons k
  | SReject r k => r :: script_reasons k
  end.



(** ** Promises that an operation can settle *)

Definition any_ref : ref → Prop := λ _, True.

(** The queue as the operation finds it: the host removes the microtask
    it is about to run. *)
Definition before (op : Operation) (w : World) : World :=
  match op with
  | OpMicrotask => set_microtasks (tail (microtasks w)) w
  | _ => w
  end.

(** ** Scheduling of reactions *)

(** The microtasks that the host runs in its next [n] turns, in order. *)
Fixpoint executed (n : nat) (w : World) : list Microtask :=
  match n with
  | 0 => []
  | S n' =>
      match microtasks w with
      | [] => []
      | t :: _ => t :: executed n' (tick w)
      end
  end.

Definition matching_task (s : PromiseState) (p : ref) (l : Listener) : Microtask :=
  match s with
  | Rejected _ => TaskRejected l p
  | _ => TaskFulfilled l p
  end.

Definition matching_listeners (s : PromiseState) (p : ref) (w : World) : list Listener :=
  match s with
  | Pending => []
  | Fulfilled _ => fulfilled_of p w
  | Rejected _ => rejected_of p w
  end.

Definition payload (s : PromiseState) : Value :=
  match s with
  | Pending => VUndefined
  | Fulfilled v => v
  | Rejected r => r
  end.

(** The promises that an operation can settle. *)
Definition op_targets (op : Operation) (w : World) : ref → Prop :=
  match op with
  | OpNew _ | OpStaticResolve _ | OpStaticReject _ => eq (length (heap w))
  | OpThen _ _ _ | OpCatch _ _ => λ _, False
  | OpResolve p _ | OpReject p _
  | OpArrowFulfilled p _ _ | OpArrowRejected p _ _ => eq p
  | OpMicrotask =>
      match microtasks w with
      | t :: _ => targets_of (task_listener t)
      | [] => λ _, False
      end
  end.

(** The operation is a call of a settle function of [out], or of an arrow
    made for [out]. *)
Definition settles_directly (out : ref) (op : Operation) : Prop :=
  match op with
  | OpResolve p _ | OpReject p _
  | OpArrowFulfilled p _ _ | OpArrowRejected p _ _ => p = out
  | _ => False
  end.

Definition perform_all (ops : list Operation) (w : World) : World :=
  foldl (λ w' op, world_after (perform op) w') w ops.

(** No listener, waiting or queued, can settle [x]. *)
Definition untargeted (x : ref) (w : World) : Prop :=
  (∀ y l, l ∈ fulfilled_of y w ∨ l ∈ rejected_of y w → x ∉ listener_targets l)
  ∧ (∀ t, t ∈ microtasks w → x ∉ listener_targets (task_listener t)).

(** ** Assignments by calling code *)

(** Calling code keeps the objects it passes to the library and can
    write to them between two calls: [o.then = member] on the object of
    identity [id].  [assign_then id member v] is the value [v] as it reads
    from then on, wherever the object occurs in it. *)
Fixpoint assign_then (id : nat) (member : ThenProp) (v : Value) : Value :=
  match v with
  | VObject i t =>
      VObject i (if bool_decide (i = id) then member else assign_then_member id member t)
  | VFunction i t =>
      VFunction i (if bool_decide (i = id) then member else assign_then_member id member t)
  | VPrinted i t text =>
      VPrinted i (if bool_decide (i = id) then member else assign_then_member id member t)
        text
  | VUnprintable i t thrown =>
      VUnprintable i
        (if bool_decide (i = id) then member else assign_then_member id member t)
        (assign_then id member thrown)
  | _ => v
  end
with assign_then_member (id : nat) (member : ThenProp) (t : ThenProp) : ThenProp :=
  match t with
  | ThenThrows e => ThenThrows (assign_then id member e)
  | ThenCallable body => ThenCallable (assign_then_script id member body)
  | ThenMissing | ThenNotCallable => t
  end
with assign_then_script (id : nat) (member : ThenProp) (body : Script) : Script :=
  match body with
  | SReturn => SReturn
  | SThrow e => SThrow (assign_then id member e)
  | SResolve v k => SResolve (assign_then id member v) (assign_then_script id member k)
  | SReject r k => SReject (assign_then id member r) (assign_then_script id member k)
  end.

Definition assign_state (id : nat) (member : ThenProp) (s : PromiseState) : PromiseState :=
  match s with
  | Pending => Pending
  | Fulfilled v => Fulfilled (assign_then id member v)
  | Rejected r => Rejected (assign_then id member r)
  end.

Definition assign_promise (id : nat) (member : ThenProp) (P : Promise) : Promise :=
  mkPromise (assign_state id member (state P)) (fulfilledListeners P) (rejectedListeners P).

(** The store after the assignment: the promises that hold the object
    hold it as it reads now.  Listeners and queue hold no value. *)
Definition assign_world (id : nat) (member : ThenProp) (w : World) : World :=
  set_heap (assign_promise id member <$> heap w) w.

(** What calling code does between two turns of the host: a call into
    the library, or an assignment to the [then] member of an object. *)
Inductive Action :=
| ActCall (op : Operation)
| ActAssignThen (id : nat) (member : ThenProp).

Definition act (a : Action) (w : World) : World :=
  match a with
  | ActCall op => world_after (perform op) w
  | ActAssignThen id member => assign_world id member w
  end.

Definition act_all (acts : list Action) (w : World) : World :=
  foldl (λ w' a, act a w') w acts.

Definition action_settles_directly (out : ref) (a : Action) : Prop :=
  match a with
  | ActCall op => settles_directly out op
  | ActAssignThen _ _ => False
  end.

(** The value of a fulfilled promise has no [then] that is callable or
    that throws. *)
Definition plain_payload (q : ref) (w : World) : Prop :=
  ∀ v, state_of q w = Fulfilled v → plain v = true.

(** No assignment of the run [acts] from [w] gives the value that [q] is
    fulfilled with a [then] that is callable or that throws. *)
Fixpoint assignments_keep_plain (q : ref) (acts : list Action) (w : World) : Prop :=
  match acts with
  | [] => True
  | a :: rest =>
      match a with
      | ActCall _ => True
      | ActAssignThen _ _ => plain_payload q (act a w)
      end
      ∧ assignments_keep_plain q rest (act a w)
  end.

(** ** A promise that follows another one *)

(** [out] follows [q] through the listeners [LF] and [LR].  While [out]
    is pending: nothing but [LF] and [LR] can settle it,
    they sit in the sequences of [q] as long as [q] is pending, and in
    the queue once [q] is settled; and a value that [q] is fulfilled with
    is one that [LF] can take ([ok]). *)
Record linked (ok : Value → Prop) (q out : ref) (LF LR : Listener) (w : World) : Prop := {
  link_pending : state_of out w = Pending;
  link_out : out < length (heap w);
  link_source : q < length (heap w);
  link_plain : ∀ v, state_of q w = Fulfilled v → ok v;
  link_fulfilled : ∀ x l,
    l ∈ fulfilled_of x w → out ∈ listener_targets l → x = q ∧ l = LF;
  link_rejected : ∀ x l,
    l ∈ rejected_of x w → out ∈ listener_targets l → x = q ∧ l = LR;
  link_tasks : ∀ t,
    t ∈ microtasks w → out ∈ listener_targets (task_listener t) →
    (t = TaskFulfilled LF q ∧ ∃ v, state_of q w = Fulfilled v)
    ∨ (t = TaskRejected LR q ∧ ∃ r, state_of q w = Rejected r);
  link_waiting :
    state_of q w = Pending → LF ∈ fulfilled_of q w ∧ LR ∈ rejected_of q w;
  link_scheduled_fulfilled : ∀ v,
    state_of q w = Fulfilled v → TaskFulfilled LF q ∈ microtasks w;
  link_scheduled_rejected : ∀ r,
    state_of q w = Rejected r → TaskRejected LR q ∈ microtasks w
}.

Definition adopted (q out : ref) (w : World) : Prop :=
  state_of q w ≠ Pending ∧ state_of out w = state_of q w.

Definition follows (ok : Value → Prop) (q out : ref) (LF LR : Listener) (w : World)
  : Prop :=
  linked ok q out LF LR w ∨ adopted q out w.

(** ** Reactions with callbacks *)

Definition completion_state (c : Completion) : PromiseState :=
  match c with
  | Return r => Fulfilled r
  | Throw e => Rejected e
  end.

(** The callback, when it is a function, returns plain values only (or
    throws): nothing it returns has to be unwrapped. *)
Definition returns_plain (h : Arg (Value → Completion)) : Prop :=
  match h with
  | Callable f => ∀ v, match f v with Return r => plain r = true | Throw _ => True end
  | NotCallable _ => True
  end.

(** The state that [then(onfulfilled, onrejected)] gives the derived
    promise for a source in state [s]. *)
Definition reaction_outcome (onF onR : Arg (Value → Completion)) (s : PromiseState)
  : PromiseState :=
  match s with
  | Pending => Pending
  | Fulfilled v =>
      match onF with
      | Callable f => completion_state (f v)
      | NotCallable _ => Fulfilled v
      end
  | Rejected r =>
      match onR with
      | Callable f => completion_state (f r)
      | NotCallable _ => Rejected r
      end
  end.

(** The values that the entry of [then] for a fulfilment can take: any
    value when [onfulfilled] is a function, which receives the value as it
    is; a value without a [then] to follow when it is not, since the entry
    is then the [resolve] of the derived promise. *)
Definition passes_on (onF : Arg (Value → Completion)) (v : Value) : Prop :=
  match onF with
  | Callable _ => True
  | NotCallable _ => plain v = true
  end.

(** [out] is settled as the reaction to the settled state of [q]. *)
Definition reacted (q out : ref) (react : PromiseState → PromiseState) (w : World) : Prop :=
  state_of q w ≠ Pending ∧ state_of out w = react (state_of q w).

Definition reacts (ok : Value → Prop) (q out : ref) (LF LR : Listener)
    (react : PromiseState → PromiseState) (w : World) : Prop :=
  linked ok q out LF LR w ∨ reacted q out react w.



(** A state of the draft in which no thenable is recorded. *)
Definition unlocked (s : Draft.DraftState) : Prop :=
  ∀ t, s ≠ Draft.DPending (Some t).

(** ** Unwrapping of foreign thenables *)


(** ** Reachable worlds *)

(** Every listener, waiting or queued, settles allocated promises only. *)
Definition closed (w : World) : Prop :=
  ∀ x, length (heap w) ≤ x → untargeted x w.

(** The settle functions and arrows that calling code holds belong to
    promises that exist. *)
Definition op_in_range (op : Operation) (w : World) : Prop :=
  match op with
  | OpResolve p _ | OpReject p _
  | OpArrowFulfilled p _ _ | OpArrowRejected p _ _ => p < length (heap w)
  | _ => True
  end.

(** The worlds that calling code reaches from the empty one, by calls
    into the library and by assignments to objects it holds. *)
Inductive reachable : World → Prop :=
| reachable_empty : reachable empty_world
| reachable_perform op w :
    reachable w → op_in_range op w → reachable (world_after (perform op) w)
| reachable_assign id member w :
    reachable w → reachable (assign_world id member w).

(** ** Worlds and candidates used as examples *)

Definition one_pending : World := mkWorld [fresh_promise] [] [].


Definition throwing_getter : Value := VObject 0 (ThenThrows (VString "boom")).

Definition settled_once : World :=
  mkWorld [mkPromise (Fulfilled (VNumber 1)) [] []] [] [].

Definition two_waiting : World :=
  mkWorld [mkPromise Pending [LResolve 1; LResolve 2] [LReject 1; LReject 2];
           fresh_promise; fresh_promise] [] [].


Definition inner_pending : World :=
  world_after (new_PinkyPromise (Callable SReturn)) empty_world.

Definition resolve_then_reject : Script :=
  SResolve (VPromise 0) (SReject (VString "late") SReturn).

(** A callback that adds one to a number, and one that gives the length
    of a string; on other arguments they return [undefined]. *)
Definition add_one (v : Value) : Completion :=
  match v with
  | VNumber n => Return (VNumber (n + 1))
  | _ => Return VUndefined
  end.

Definition length_of (v : Value) : Completion :=
  match v with
  | VString s => Return (VNumber (Z.of_nat (String.length s)))
  | _ => Return VUndefined
  end.

Definition rejected_once : World :=
  mkWorld [mkPromise (Rejected (VString "boom")) [] []] [] [].

(** An object without [then], the member [then(f, g) { g("changed") }]
    that calling code gives it later, and the object as it reads then. *)
Definition bare_object : Value := VObject 7 ThenMissing.

Definition rejecting_then : ThenProp :=
  ThenCallable (SReject (VString "changed") SReturn).

Definition changed_object : Value := VObject 7 rejecting_then.

(** [p = resolve(o); o.then = ...; d = p.then()], and one turn of the
    host. *)
Definition then_after_assignment : list Action :=
  [ActCall (OpStaticResolve bare_object);
   ActAssignThen 7 rejecting_then;
   ActCall (OpThen 0 (NotCallable VUndefined) (NotCallable VUndefined));
   ActCall OpMicrotask].


(** An assignment to another object, and one turn of the host. *)
Definition assignment_elsewhere : list Action :=
  [ActAssignThen 5 rejecting_then; ActCall OpMicrotask].


(** * Properties *)

(** ** What the store-level operations do *)

Lemma forEach_queue {A} (f : A → Microtask) (ls : list A) (w : World) :
  forEach ls (λ x, queueMicrotask (f x)) w
  = (Normal tt, set_microtasks (microtasks w ++ map f ls) w).
Proof.
  revert w. induction ls as [|x ls IH]; intros w; simpl.
  - unfold ret, set_microtasks. rewrite app_nil_r. by destruct w.
  - unfold bind, queueMicrotask, modify. rewrite IH. simpl.
    unfold set_microtasks; simpl. by rewrite <- app_assoc.
Qed.

Lemma notify_spec (this : ref) (w : World) :
  notify this w = (Normal tt, notify_world this w).
Proof.
  unfold notify, notify_world, bind, gets.
  destruct (state_of this w); [done| |].
  - rewrite forEach_queue. unfold update, modify, fulfilled_of, set_heap, set_microtasks.
    by simpl.
  - rewrite forEach_queue. unfold update, modify, rejected_of, set_heap, set_microtasks.
    by simpl.
Qed.

Lemma transition_spec (p : ref) (s : PromiseState) (w : World) :
  transition p s w = (Normal tt, transition_world p s w).
Proof.
  unfold transition, transition_world, bind, gets.
  destruct (is_pending (state_of p w)); [|done].
  unfold update, modify. by rewrite notify_spec.
Qed.

Lemma reject_fn_spec (p : ref) (r : Value) (w : World) :
  reject_fn p r w = (Normal tt, transition_world p (Rejected r) w).
Proof. apply transition_spec. Qed.

Lemma then_spec (that : ref) (onF onR : Arg Callback) (w : World) :
  then_ that onF onR w = (Normal (length (heap w)), then_world that onF onR w).
Proof.
  unfold then_, construct, then_world, bind, alloc, try_catch, update, modify, ret.
  simpl. rewrite notify_spec.
  by destruct onF, onR.
Qed.

Lemma catch_spec (this : ref) (onR : Arg Callback) (w : World) :
  catch_ this onR w
  = (Normal (length (heap w)), then_world this (NotCallable VUndefined) onR w).
Proof. apply then_spec. Qed.

Lemma state_of_lookup (p : ref) (w : World) (P : Promise) :
  heap w !! p = Some P → state_of p w = state P.
Proof. unfold state_of. by intros ->. Qed.

Lemma state_of_dangling (p : ref) (w : World) :
  length (heap w) ≤ p → state_of p w = Pending.
Proof. intros H. unfold state_of. by rewrite (lookup_ge_None_2 _ _ H). Qed.

Lemma settled_in_range (p : ref) (w : World) :
  state_of p w ≠ Pending → p < length (heap w).
Proof.
  intros H. destruct (decide (p < length (heap w))) as [|Hn]; [done|].
  exfalso. apply H, state_of_dangling. lia.
Qed.

Lemma heap_notify (this x : ref) (w : World) :
  heap (notify_world this w) !! x
  = if bool_decide (x = this) && negb (is_pending (state_of this w))
    then clear_listeners <$> heap w !! x
    else heap w !! x.
Proof.
  unfold notify_world. destruct (state_of this w) eqn:E; simpl.
  - by rewrite andb_false_r.
  - rewrite andb_true_r. case_bool_decide as Hx.
    + subst. apply list_lookup_alter_eq.
    + by apply list_lookup_alter_ne.
  - rewrite andb_true_r. case_bool_decide as Hx.
    + subst. apply list_lookup_alter_eq.
    + by apply list_lookup_alter_ne.
Qed.

Lemma microtasks_notify (this : ref) (w : World) :
  microtasks (notify_world this w) = microtasks w ++ scheduled this w.
Proof.
  unfold notify_world, scheduled.
  destruct (state_of this w); simpl; [by rewrite app_nil_r|done|done].
Qed.

Lemma latches_notify (this : ref) (w : World) :
  latches (notify_world this w) = latches w.
Proof. unfold notify_world. by destruct (state_of this w). Qed.

Lemma length_heap_notify (this : ref) (w : World) :
  length (heap (notify_world this w)) = length (heap w).
Proof.
  unfold notify_world. destruct (state_of this w); simpl; by rewrite ?length_alter.
Qed.

Lemma state_of_notify (this x : ref) (w : World) :
  state_of x (notify_world this w) = state_of x w.
Proof.
  unfold state_of at 1. rewrite heap_notify.
  destruct (bool_decide (x = this) && negb (is_pending (state_of this w))).
  - unfold state_of. by destruct (heap w !! x).
  - done.
Qed.

Lemma transition_world_pending (p : ref) (s : PromiseState) (w : World) :
  state_of p w = Pending → transition_world p s w = settle_world p s w.
Proof. unfold transition_world. by intros ->. Qed.

Lemma transition_world_settled (p : ref) (s : PromiseState) (w : World) :
  state_of p w ≠ Pending → transition_world p s w = w.
Proof. unfold transition_world. by destruct (state_of p w). Qed.

Lemma state_of_set_state (p x : ref) (s : PromiseState) (w : World) :
  state_of x (set_heap (alter (set_state s) p (heap w)) w)
  = if bool_decide (x = p) && bool_decide (p < length (heap w)) then s else state_of x w.
Proof.
  unfold state_of; simpl. case_bool_decide as Hx; simpl.
  - subst. rewrite list_lookup_alter_eq. case_bool_decide as Hr.
    + destruct (lookup_lt_is_Some_2 _ _ Hr) as [P ->]. done.
    + rewrite lookup_ge_None_2; [done|lia].
  - by rewrite list_lookup_alter_ne.
Qed.

Lemma state_of_settle (p x : ref) (s : PromiseState) (w : World) :
  state_of x (settle_world p s w)
  = if bool_decide (x = p) && bool_decide (p < length (heap w)) then s else state_of x w.
Proof. unfold settle_world. by rewrite state_of_notify, state_of_set_state. Qed.

Lemma state_of_settle_same (p : ref) (s : PromiseState) (w : World) :
  p < length (heap w) → state_of p (settle_world p s w) = s.
Proof.
  intros H. rewrite state_of_settle.
  by rewrite !bool_decide_eq_true_2.
Qed.

Lemma state_of_transition (p x : ref) (s : PromiseState) (w : World) :
  state_of x (transition_world p s w)
  = if bool_decide (x = p) && bool_decide (p < length (heap w))
       && is_pending (state_of p w)
    then s else state_of x w.
Proof.
  unfold transition_world. destruct (is_pending (state_of p w)) eqn:E.
  - fold (settle_world p s w). rewrite state_of_settle. by rewrite andb_true_r.
  - by rewrite andb_false_r.
Qed.

Lemma length_heap_settle (p : ref) (s : PromiseState) (w : World) :
  length (heap (settle_world p s w)) = length (heap w).
Proof. unfold settle_world. rewrite length_heap_notify. simpl. apply length_alter. Qed.

Lemma length_heap_transition (p : ref) (s : PromiseState) (w : World) :
  length (heap (transition_world p s w)) = length (heap w).
Proof.
  unfold transition_world. destruct (is_pending _); [|done].
  apply length_heap_settle.
Qed.

Lemma latches_transition (p : ref) (s : PromiseState) (w : World) :
  latches (transition_world p s w) = latches w.
Proof.
  unfold transition_world. destruct (is_pending _); [|done].
  by rewrite latches_notify.
Qed.

Lemma length_heap_then (q : ref) (onF onR : Arg Callback) (w : World) :
  length (heap (then_world q onF onR w)) = S (length (heap w)).
Proof.
  unfold then_world. rewrite length_heap_notify. simpl.
  rewrite !length_alter, length_app. simpl. lia.
Qed.

Lemma latches_then (q : ref) (onF onR : Arg Callback) (w : World) :
  latches (then_world q onF onR w) = latches w.
Proof. unfold then_world. by rewrite latches_notify. Qed.

Lemma state_of_then (q x : ref) (onF onR : Arg Callback) (w : World) :
  state_of x (then_world q onF onR w) = state_of x w.
Proof.
  unfold then_world. rewrite state_of_notify. unfold state_of; simpl.
  destruct (decide (q = x)) as [->|Hne].
  - rewrite !list_lookup_alter_eq.
    destruct (decide (x < length (heap w))) as [Hlt|Hge].
    + rewrite lookup_app_l by done. by destruct (heap w !! x).
    + rewrite (lookup_ge_None_2 (heap w)) by lia.
      destruct ((heap w ++ [fresh_promise]) !! x) as [P|] eqn:E; [|done].
      apply lookup_snoc_Some in E as [[? ?]|[? <-]]; [lia|done].
  - rewrite !list_lookup_alter_ne by done.
    destruct (decide (x < length (heap w))) as [Hlt|Hge].
    + by rewrite lookup_app_l.
    + rewrite (lookup_ge_None_2 (heap w)) by lia.
      destruct ((heap w ++ [fresh_promise]) !! x) as [P|] eqn:E; [|done].
      apply lookup_snoc_Some in E as [[? ?]|[? <-]]; [lia|done].
Qed.

(** ** The resolution procedure, case by case *)

Lemma unpack_settled (p : ref) (v : Value) (w : World) :
  state_of p w ≠ Pending → unpack p v w = (Normal tt, w).
Proof.
  intros H. destruct v; simpl; unfold bind, gets;
    destruct (state_of p w); done.
Qed.

Lemma unpack_self (p : ref) (w : World) :
  state_of p w = Pending →
  unpack p (VPromise p) w = (Normal tt, settle_world p (Rejected cycle_error) w).
Proof.
  intros H. simpl. unfold bind, gets. rewrite H; simpl.
  rewrite bool_decide_eq_true_2 by done.
  rewrite transition_spec. by rewrite transition_world_pending.
Qed.

Lemma unpack_promise (p q : ref) (w : World) :
  state_of p w = Pending → q ≠ p →
  unpack p (VPromise q) w
  = (Normal tt,
     then_world q (Callable (CbUnpack p)) (Callable (CbTransitionRejected p)) w).
Proof.
  intros H Hne. simpl. unfold bind, gets. rewrite H; simpl.
  rewrite bool_decide_eq_false_2 by done.
  unfold try_catch, bind. by rewrite then_spec.
Qed.

Lemma unpack_plain (p : ref) (v : Value) (w : World) :
  state_of p w = Pending → plain v = true →
  unpack p v w = (Normal tt, settle_world p (Fulfilled v) w).
Proof.
  intros H Hv.
  destruct v as [| | | | | | |? []|? []|? [] ?|? [] ?]; try discriminate Hv;
    simpl; unfold bind, gets; rewrite H; simpl;
    repeat match goal with |- context [if ?b then _ else _] => destruct b end;
    rewrite transition_spec; by rewrite transition_world_pending.
Qed.

Lemma unpack_then_throws (p : ref) (v e : Value) (w : World) :
  state_of p w = Pending → is_this v p = false → then_member v = ThenThrows e →
  unpack p v w = (Normal tt, settle_world p (Rejected e) w).
Proof.
  intros H _ Hv.
  destruct v as [| | | | | | |? []|? []|? [] ?|? [] ?]; try discriminate Hv;
    simpl in Hv; injection Hv as ->;
    simpl; unfold bind, gets; rewrite H; simpl;
    rewrite transition_spec; by rewrite transition_world_pending.
Qed.

Lemma unpack_thenable (p : ref) (v : Value) (body : Script) (w : World) :
  state_of p w = Pending → then_member v = ThenCallable body →
  unpack p v w
  = (let* called := new_latch in
     try_catch (call_then p called body) (then_call_failed p called)) w.
Proof.
  intros H Hv.
  destruct v as [| | | | | | |? []|? []|? [] ?|? [] ?]; try discriminate Hv;
    simpl in Hv; injection Hv as ->;
    simpl; unfold bind at 1, gets; by rewrite H.
Qed.

Lemma call_then_resolve (p : ref) (called : nat) (v : Value) (k : Script) :
  call_then p called (SResolve v k)
  = (thenable_onfulfilled p called v >> call_then p called k).
Proof. done. Qed.

Lemma call_then_reject (p : ref) (called : nat) (r : Value) (k : Script) :
  call_then p called (SReject r k)
  = (thenable_onrejected p called r >> call_then p called k).
Proof. done. Qed.

(** Every candidate falls under one of the cases. *)
Lemma candidate_cases (p : ref) (v : Value) :
  v = VPromise p ∨ (∃ q, v = VPromise q ∧ q ≠ p) ∨ plain v = true
  ∨ (is_this v p = false ∧ ∃ e, then_member v = ThenThrows e)
  ∨ (∃ body, then_member v = ThenCallable body).
Proof.
  destruct v as [| | | | | |q|? t|? t|? t ?|? t ?]; simpl; auto.
  - destruct (decide (q = p)); subst; eauto 6.
  - destruct t; eauto 10.
  - destruct t; eauto 10.
  - destruct t; eauto 10.
  - destruct t; eauto 10.
Qed.

(** ** Runs of the resolution procedure *)

Lemma steps_trans T S w1 w2 w3 :
  steps T S w1 w2 → steps T S w2 w3 → steps T S w1 w3.
Proof.
  induction 1; intros Hrest; eauto using steps.
Qed.

Lemma steps_weaken (T T' : ref → Prop) (S S' : PromiseState → Prop) w w' :
  (∀ p, T p → T' p) → (∀ s, S s → S' s) → steps T S w w' → steps T' S' w w'.
Proof.
  intros HT HS. induction 1; eauto 6 using steps.
Qed.

Lemma transition_steps (T : ref → Prop) (S : PromiseState → Prop) p s w :
  T p → S s → settles s → steps T S w (transition_world p s w).
Proof.
  intros HT HS Hs. destruct (state_of p w) eqn:E.
  - rewrite transition_world_pending by done.
    apply (steps_settle _ _ p s); [done|done|done|done|constructor].
  - rewrite transition_world_settled by (by rewrite E). constructor.
  - rewrite transition_world_settled by (by rewrite E). constructor.
Qed.

Lemma may_settle_plain p v : plain v = true → may_settle p v (Fulfilled v).
Proof.
  destruct v as [| | | | | | |? []|? []|? [] ?|? [] ?]; try discriminate; intros _; by simpl.
Qed.

Lemma may_settle_then_throws p v e :
  is_this v p = false → then_member v = ThenThrows e → may_settle p v (Rejected e).
Proof.
  destruct v as [| | | | | | |? []|? []|? [] ?|? [] ?]; try discriminate; intros _ [= ->]; by simpl.
Qed.

Lemma may_settle_thenable p v body s :
  then_member v = ThenCallable body → may_settle p v s = script_may_settle p body s.
Proof.
  destruct v as [| | | | | | |? []|? []|? [] ?|? [] ?]; try discriminate; intros [= ->]; by simpl.
Qed.

Lemma pending_dec (s : PromiseState) : {s = Pending} + {s ≠ Pending}.
Proof. destruct s; [by left|by right|by right]. Defined.

Lemma unpack_runs_base (v : Value) :
  (∀ body, then_member v = ThenCallable body → call_then_runs body) →
  unpack_runs v.
Proof.
  intros IH p w.
  destruct (pending_dec (state_of p w)) as [Hp|Hp];
    [|rewrite unpack_settled by done; eauto using steps].
  destruct (candidate_cases p v) as [->|[(q&->&Hq)|[Hv|[(Hn&e&He)|(body&Hb)]]]].
  - rewrite unpack_self by done. eexists; split; [done|].
    apply (steps_settle _ _ p (Rejected cycle_error)); [done| |done|done|constructor].
    simpl. by rewrite bool_decide_eq_true_2.
  - rewrite unpack_promise by done. eexists; split; [done|].
    eapply steps_then; [|constructor].
    simpl. intros x Hx. apply list_elem_of_In in Hx. simpl in Hx. intuition.
  - rewrite unpack_plain by done. eexists; split; [done|].
    apply (steps_settle _ _ p (Fulfilled v));
      [done|by apply may_settle_plain|done|done|constructor].
  - rewrite (unpack_then_throws p v e) by done. eexists; split; [done|].
    apply (steps_settle _ _ p (Rejected e));
      [done|by apply may_settle_then_throws|done|done|constructor].
  - rewrite (unpack_thenable p v body) by done.
    unfold bind, new_latch, try_catch.
    destruct (IH body Hb p (length (latches w)) (set_latches (latches w ++ [false]) w))
      as (r & w1 & Hrun & Hsteps & Hthrown).
    rewrite Hrun.
    assert (Hs1 : steps (eq p) (may_settle p v) w w1).
    { apply steps_new_latch.
      eapply steps_weaken; [done| |exact Hsteps].
      intros s. by rewrite (may_settle_thenable _ _ _ _ Hb). }
    destruct r as [[]|e]; [eauto|].
    unfold then_call_failed, bind, read_latch, gets.
    destruct (default false (latches w1 !! length (latches w))); [eauto|].
    unfold write_latch, modify. rewrite transition_spec.
    eexists; split; [done|].
    eapply steps_trans; [exact Hs1|].
    apply (steps_set_latch _ _ (length (latches w))).
    apply transition_steps; [done| |done].
    rewrite (may_settle_thenable _ _ _ _ Hb). by apply Hthrown.
Qed.

Lemma unpack_call_then_runs :
  (∀ v, unpack_runs v)
  ∧ (∀ t, ∀ body, t = ThenCallable body → call_then_runs body)
  ∧ (∀ body, call_then_runs body).
Proof.
  apply Value_mutind; intros;
    try (apply unpack_runs_base; simpl; intros; by eauto);
    try discriminate.
  - by injection H0 as <-.
  - (* SReturn *) intros p c w. exists (Normal tt), w. simpl.
    split; [done|]. split; [constructor|]. by intros ? [=].
  - (* SThrow *) intros p c w. exists (Thrown e), w. simpl.
    split; [done|]. split; [constructor|]. by intros ? [= ->].
  - (* SResolve *) intros p c w. rewrite call_then_resolve.
    unfold bind at 1, thenable_onfulfilled, bind at 1, read_latch, gets.
    destruct (default false (latches w !! c)).
    + destruct (H0 p c w) as (r & w' & Hrun & Hs & Ht).
      exists r, w'. split; [done|]. simpl. split.
      * eapply steps_weaken; [done| |exact Hs]. auto.
      * intros e' He. right. eauto.
    + unfold bind at 1, write_latch, modify.
      destruct (H p (set_latches (<[c:=true]> (latches w)) w)) as (w1 & Hrun1 & Hs1).
      rewrite Hrun1.
      destruct (H0 p c w1) as (r & w' & Hrun & Hs & Ht).
      exists r, w'. split; [done|]. simpl. split.
      * apply (steps_set_latch _ _ c). eapply steps_trans.
        -- eapply steps_weaken; [done| |exact Hs1]. auto.
        -- eapply steps_weaken; [done| |exact Hs]. auto.
      * intros e' He. right. eauto.
  - (* SReject *) intros p c w. rewrite call_then_reject.
    unfold bind at 1, thenable_onrejected, bind at 1, read_latch, gets.
    destruct (default false (latches w !! c)).
    + destruct (H0 p c w) as (r' & w' & Hrun & Hs & Ht).
      exists r', w'. split; [done|]. simpl. split.
      * eapply steps_weaken; [done| |exact Hs]. auto.
      * intros e' He. right. eauto.
    + unfold bind at 1, write_latch, modify. rewrite transition_spec.
      destruct (H0 p c (transition_world p (Rejected r)
                          (set_latches (<[c:=true]> (latches w)) w)))
        as (r' & w' & Hrun & Hs & Ht).
      exists r', w'. split; [done|]. simpl. split.
      * apply (steps_set_latch _ _ c). eapply steps_trans.
        -- apply transition_steps; [done|by left|done].
        -- eapply steps_weaken; [done| |exact Hs]. auto.
      * intros e' He. right. eauto.
Qed.

Lemma unpack_steps (p : ref) (v : Value) (w : World) :
  ∃ w', unpack p v w = (Normal tt, w') ∧ steps (eq p) (may_settle p v) w w'.
Proof. apply unpack_call_then_runs. Qed.

Lemma call_then_steps (p : ref) (called : nat) (body : Script) (w : World) :
  ∃ r w', call_then p called body w = (r, w')
          ∧ steps (eq p) (script_may_settle p body) w w'
          ∧ (∀ e, r = Thrown e → script_may_settle p body (Rejected e)).
Proof. apply unpack_call_then_runs. Qed.

(** ** Reading a promise after an elementary change *)

Lemma state_of_promise x w : state_of x w = state (promise_of x w).
Proof. unfold state_of, promise_of. by destruct (heap w !! x). Qed.

Lemma fulfilled_of_promise x w : fulfilled_of x w = fulfilledListeners (promise_of x w).
Proof. unfold fulfilled_of, promise_of. by destruct (heap w !! x). Qed.

Lemma rejected_of_promise x w : rejected_of x w = rejectedListeners (promise_of x w).
Proof. unfold rejected_of, promise_of. by destruct (heap w !! x). Qed.

Lemma promise_of_alter (f : Promise → Promise) (p x : ref) (h : list Promise) (w : World) :
  promise_of x (set_heap (alter f p h) w)
  = if bool_decide (x = p) && bool_decide (p < length h)
    then f (promise_of x (set_heap h w)) else promise_of x (set_heap h w).
Proof.
  unfold promise_of; simpl. case_bool_decide as Hx; simpl.
  - subst. rewrite list_lookup_alter_eq. case_bool_decide as Hr.
    + by destruct (lookup_lt_is_Some_2 _ _ Hr) as [P ->].
    + by rewrite lookup_ge_None_2 by lia.
  - by rewrite list_lookup_alter_ne.
Qed.

Lemma promise_of_alloc (x : ref) (w : World) :
  promise_of x (set_heap (heap w ++ [fresh_promise]) w) = promise_of x w.
Proof.
  unfold promise_of; simpl.
  destruct (decide (x < length (heap w))) as [Hlt|Hge].
  - by rewrite lookup_app_l.
  - rewrite (lookup_ge_None_2 (heap w)) by lia.
    destruct ((heap w ++ [fresh_promise]) !! x) as [P|] eqn:E; [|done].
    apply lookup_snoc_Some in E as [[? ?]|[? <-]]; [lia|done].
Qed.

Lemma set_heap_id (w : World) : set_heap (heap w) w = w.
Proof. by destruct w. Qed.

Lemma promise_of_notify (this x : ref) (w : World) :
  promise_of x (notify_world this w)
  = if bool_decide (x = this) then clear_if_settled (promise_of x w)
    else promise_of x w.
Proof.
  unfold promise_of at 1. rewrite heap_notify.
  case_bool_decide as Hx; simpl; [|done]. subst x.
  unfold clear_if_settled. rewrite <- state_of_promise.
  destruct (is_pending (state_of this w)) eqn:E; simpl; [done|].
  unfold promise_of. destruct (heap w !! this) eqn:El; [done|].
  unfold state_of in E. by rewrite El in E.
Qed.

Lemma promise_of_settle (p x : ref) (s : PromiseState) (w : World) :
  promise_of x (settle_world p s w)
  = if bool_decide (x = p) && bool_decide (p < length (heap w))
    then clear_if_settled (set_state s (promise_of x w))
    else promise_of x w.
Proof.
  unfold settle_world. rewrite promise_of_notify, promise_of_alter, set_heap_id.
  case_bool_decide as Hx; simpl; [|done].
  case_bool_decide as Hr; [done|]. subst x.
  unfold clear_if_settled. rewrite <- state_of_promise.
  by rewrite state_of_dangling by lia.
Qed.

Lemma promise_of_then (q x : ref) (onF onR : Arg Callback) (w : World) :
  promise_of x (then_world q onF onR w)
  = if bool_decide (x = q) && bool_decide (q ≤ length (heap w))
    then clear_if_settled
           (push_rejected (rejected_entry (length (heap w)) onR)
              (push_fulfilled (fulfilled_entry (length (heap w)) onF) (promise_of x w)))
    else promise_of x w.
Proof.
  unfold then_world. rewrite promise_of_notify, !promise_of_alter, promise_of_alloc.
  rewrite length_alter, length_app; simpl.
  case_bool_decide as Hx; simpl; [|done]. subst x.
  assert (bool_decide (q < length (heap w) + 1) = bool_decide (q ≤ length (heap w))) as ->.
  { apply bool_decide_ext. lia. }
  case_bool_decide as Hr; [done|].
  unfold clear_if_settled. rewrite <- state_of_promise.
  by rewrite state_of_dangling by lia.
Qed.

Lemma microtasks_settle (p : ref) (s : PromiseState) (w : World) :
  microtasks (settle_world p s w)
  = microtasks w ++
    match s with
    | Pending => []
    | Fulfilled _ => map (λ l, TaskFulfilled l p) (fulfilled_of p w)
    | Rejected _ => map (λ l, TaskRejected l p) (rejected_of p w)
    end.
Proof.
  unfold settle_world. rewrite microtasks_notify. simpl. f_equal.
  unfold scheduled. rewrite state_of_set_state, bool_decide_eq_true_2 by done. simpl.
  rewrite fulfilled_of_promise, rejected_of_promise, promise_of_alter, set_heap_id.
  rewrite (bool_decide_eq_true_2 (p = p)) by done. simpl.
  case_bool_decide as Hr.
  - rewrite fulfilled_of_promise, rejected_of_promise. by destruct s.
  - rewrite state_of_dangling by lia.
    rewrite fulfilled_of_promise, rejected_of_promise.
    unfold promise_of. rewrite lookup_ge_None_2 by lia. by destruct s.
Qed.

Lemma microtasks_then (q : ref) (onF onR : Arg Callback) (w : World) :
  q < length (heap w) →
  microtasks (then_world q onF onR w)
  = microtasks w ++
    match state_of q w with
    | Pending => []
    | Fulfilled _ =>
        map (λ l, TaskFulfilled l q)
          (fulfilled_of q w ++ [fulfilled_entry (length (heap w)) onF])
    | Rejected _ =>
        map (λ l, TaskRejected l q)
          (rejected_of q w ++ [rejected_entry (length (heap w)) onR])
    end.
Proof.
  intros Hq. unfold then_world. rewrite microtasks_notify. simpl. f_equal.
  unfold scheduled.
  rewrite !state_of_promise, !fulfilled_of_promise, !rejected_of_promise.
  rewrite !promise_of_alter, promise_of_alloc.
  rewrite length_alter, length_app; simpl.
  rewrite !bool_decide_eq_true_2 by (done || lia). simpl.
  by destruct (state (promise_of q w)).
Qed.

Lemma microtasks_then_grow (q : ref) (onF onR : Arg Callback) (w : World) :
  ∃ added, microtasks (then_world q onF onR w) = microtasks w ++ added.
Proof. unfold then_world. rewrite microtasks_notify. simpl. eauto. Qed.

(** ** What every run preserves *)

Lemma settles_not_pending s : settles s → s ≠ Pending.
Proof. by destruct s. Qed.

(** Single assignment: along a run, the state of a promise changes at most
    once, from [Pending], and only for a promise the run may settle. *)
Lemma steps_outcome T S w w' (x : ref) :
  steps T S w w' →
  state_of x w' = state_of x w
  ∨ (T x ∧ S (state_of x w') ∧ settles (state_of x w') ∧ state_of x w = Pending).
Proof.
  induction 1 as [w|p s w w' HT HS Hs Hp _ IH|q onF onR w w' _ _ IH
                  |w w' _ IH|w w' _ IH|c w w' _ IH].
  - by left.
  - rewrite state_of_settle in IH.
    destruct (bool_decide (x = p) && bool_decide (p < length (heap w))) eqn:E; [|done].
    apply andb_prop in E as [Hx _]. apply bool_decide_eq_true in Hx. subst x.
    destruct IH as [IH|(_&_&_&IH)].
    + right. rewrite IH. done.
    + by apply settles_not_pending in Hs.
  - by rewrite state_of_then in IH.
  - rewrite !state_of_promise in *. by rewrite promise_of_alloc in IH.
  - done.
  - done.
Qed.

Lemma steps_stable T S w w' (x : ref) :
  steps T S w w' → state_of x w ≠ Pending → state_of x w' = state_of x w.
Proof. intros H Hx. by destruct (steps_outcome _ _ _ _ x H) as [|(_&_&_&?)]. Qed.

Lemma steps_frame T S w w' (x : ref) :
  steps T S w w' → ¬ T x → state_of x w' = state_of x w.
Proof. intros H Hx. by destruct (steps_outcome _ _ _ _ x H) as [|(?&_)]. Qed.



Lemma steps_latches_length T S w w' :
  steps T S w w' → length (latches w) ≤ length (latches w').
Proof.
  induction 1; simpl in *; auto.
  - unfold settle_world in *. rewrite latches_notify in *. done.
  - by rewrite latches_then in *.
  - rewrite length_app in *. simpl in *. lia.
  - by rewrite length_insert in *.
Qed.

Lemma steps_microtasks T S w w' :
  steps T S w w' → ∃ added, microtasks w' = microtasks w ++ added.
Proof.
  induction 1 as [w|p s w w' HT HS Hs Hp _ IH|q onF onR w w' _ _ IH
                  |w w' _ IH|w w' _ IH|c' w w' _ IH]; simpl in *; auto.
  - exists []. by rewrite app_nil_r.
  - destruct IH as [a ->]. rewrite microtasks_settle, <- app_assoc. eauto.
  - destruct IH as [a ->]. destruct (microtasks_then_grow q onF onR w) as [b ->].
    rewrite <- app_assoc. eauto.
Qed.

Lemma queue_inv_settle p s w :
  s ≠ Pending → queue_inv w → queue_inv (settle_world p s w).
Proof.
  intros Hs Hw x. specialize (Hw x). revert Hw.
  rewrite !state_of_promise, !fulfilled_of_promise, !rejected_of_promise.
  rewrite promise_of_settle.
  destruct (bool_decide (x = p) && bool_decide (p < length (heap w))); [|done].
  intros _. unfold clear_if_settled. simpl. by destruct s.
Qed.

Lemma queue_inv_then q onF onR w :
  queue_inv w → queue_inv (then_world q onF onR w).
Proof.
  intros Hw x. specialize (Hw x). revert Hw.
  rewrite !state_of_promise, !fulfilled_of_promise, !rejected_of_promise.
  rewrite promise_of_then.
  destruct (bool_decide (x = q) && bool_decide (q ≤ length (heap w))); [|done].
  intros _. unfold clear_if_settled. simpl.
  destruct (state (promise_of x w)) eqn:E; simpl; [|done|done].
  intros H. by destruct H.
Qed.

Lemma steps_queue_inv T S w w' : steps T S w w' → queue_inv w → queue_inv w'.
Proof.
  induction 1 as [w|p s w w' HT HS Hs Hp _ IH|q onF onR w w' _ _ IH
                  |w w' _ IH|w w' _ IH|c' w w' _ IH]; intros Hw; auto.
  - apply IH, queue_inv_settle; [by apply settles_not_pending|done].
  - by apply IH, queue_inv_then.
  - apply IH. intros x. specialize (Hw x). revert Hw.
    rewrite !state_of_promise, !fulfilled_of_promise, !rejected_of_promise.
    by rewrite promise_of_alloc.
Qed.

Lemma steps_plain_fulfilled T S w w' :
  steps T S w w' → plain_fulfilled w → plain_fulfilled w'.
Proof.
  intros H Hw x v Hx.
  destruct (steps_outcome _ _ _ _ x H) as [E|(_&_&Hs&_)].
  - apply (Hw x). by rewrite <- E.
  - by rewrite Hx in Hs.
Qed.

(** ** Operations as runs *)

Lemma returns_runs {A} T (m : M A) : returns_within T m → runs_within T m.
Proof. intros H w. destruct (H w) as (a & w' & ? & ?). eauto. Qed.

Lemma returns_within_weaken {A} (T T' : ref → Prop) (m : M A) :
  (∀ x, T x → T' x) → returns_within T m → returns_within T' m.
Proof.
  intros HT H w. destruct (H w) as (a & w' & ? & ?).
  exists a, w'. split; [done|]. by eapply steps_weaken.
Qed.

Lemma runs_within_weaken {A} (T T' : ref → Prop) (m : M A) :
  (∀ x, T x → T' x) → runs_within T m → runs_within T' m.
Proof.
  intros HT H w. destruct (H w) as (a & w' & ? & ?).
  exists a, w'. split; [done|]. by eapply steps_weaken.
Qed.

Lemma returns_bind {A B} T (m : M A) (k : A → M B) :
  returns_within T m → (∀ a, returns_within T (k a)) → returns_within T (bind m k).
Proof.
  intros Hm Hk w. destruct (Hm w) as (a & w1 & E1 & S1).
  destruct (Hk a w1) as (b & w2 & E2 & S2).
  exists b, w2. unfold bind. rewrite E1. split; [done|]. by eapply steps_trans.
Qed.

Lemma runs_bind {A B} T (m : M A) (k : A → M B) :
  runs_within T m → (∀ a, runs_within T (k a)) → runs_within T (bind m k).
Proof.
  intros Hm Hk w. destruct (Hm w) as (r & w1 & E1 & S1).
  unfold bind. rewrite E1. destruct r as [a|e]; [|eauto].
  destruct (Hk a w1) as (b & w2 & E2 & S2).
  exists b, w2. split; [done|]. by eapply steps_trans.
Qed.

Lemma returns_try_catch {A} T (m : M A) (h : Value → M A) :
  runs_within T m → (∀ e, returns_within T (h e)) → returns_within T (try_catch m h).
Proof.
  intros Hm Hh w. destruct (Hm w) as (r & w1 & E1 & S1).
  unfold try_catch. rewrite E1. destruct r as [a|e]; [eauto|].
  destruct (Hh e w1) as (b & w2 & E2 & S2).
  exists b, w2. split; [done|]. by eapply steps_trans.
Qed.

Lemma returns_ret {A} T (a : A) : returns_within T (ret a).
Proof. intros w. exists a, w. split; [done|constructor]. Qed.

Lemma runs_throw {A} T (e : Value) : runs_within T (throw (A:=A) e).
Proof. intros w. exists (Thrown e), w. split; [done|constructor]. Qed.

Lemma unpack_returns (p : ref) (v : Value) : returns_within (eq p) (unpack p v).
Proof.
  intros w. destruct (unpack_steps p v w) as (w' & E & Hs).
  exists tt, w'. split; [done|]. by eapply steps_weaken.
Qed.

Lemma transition_returns (p : ref) (s : PromiseState) :
  settles s → returns_within (eq p) (transition p s).
Proof.
  intros Hs w. exists tt, (transition_world p s w).
  split; [apply transition_spec|]. by apply transition_steps.
Qed.

Lemma reject_fn_returns (p : ref) (r : Value) : returns_within (eq p) (reject_fn p r).
Proof. by apply transition_returns. Qed.

Lemma resolve_fn_returns (p : ref) (v : Value) : returns_within (eq p) (resolve_fn p v).
Proof. apply unpack_returns. Qed.

Lemma then_returns (T : ref → Prop) (q : ref) (onF onR : Arg Callback) :
  (∀ x, x ∈ arg_targets onF ++ arg_targets onR → T x) →
  returns_within T (then_ q onF onR).
Proof.
  intros HT w. exists (length (heap w)), (then_world q onF onR w).
  split; [apply then_spec|]. eapply steps_then; [done|constructor].
Qed.

Lemma read_latch_returns T c : returns_within T (read_latch c).
Proof. intros w. eexists _, w. split; [done|constructor]. Qed.

Lemma write_latch_true_returns T c : returns_within T (write_latch c true).
Proof.
  intros w. eexists tt, _. split; [done|].
  apply (steps_set_latch _ _ c). constructor.
Qed.

Lemma thenable_onfulfilled_returns p called v :
  returns_within (eq p) (thenable_onfulfilled p called v).
Proof.
  apply returns_bind; [apply read_latch_returns|]. intros [|]; [apply returns_ret|].
  apply returns_bind; [apply write_latch_true_returns|]. intros _. apply unpack_returns.
Qed.

Lemma thenable_onrejected_returns p called r :
  returns_within (eq p) (thenable_onrejected p called r).
Proof.
  apply returns_bind; [apply read_latch_returns|]. intros [|]; [apply returns_ret|].
  apply returns_bind; [apply write_latch_true_returns|]. intros _.
  by apply transition_returns.
Qed.

Lemma call_callback_runs (output : ref) (cb : Callback) (v : Value) :
  runs_within (targets_of (LRun output cb)) (call_callback cb v).
Proof.
  destruct cb as [f|p|p]; simpl.
  - destruct (f v); [apply returns_runs, returns_ret|apply runs_throw].
  - apply returns_runs, returns_bind; [|intros; apply returns_ret].
    eapply returns_within_weaken; [|apply unpack_returns].
    intros x <-. unfold targets_of; simpl. apply list_elem_of_In. simpl. auto.
  - apply returns_runs, returns_bind; [|intros; apply returns_ret].
    eapply returns_within_weaken; [|by apply transition_returns].
    intros x <-. unfold targets_of; simpl. apply list_elem_of_In. simpl. auto.
Qed.

Lemma run_returns (v : Value) (output : ref) (cb : Callback) :
  returns_within (targets_of (LRun output cb)) (run v output cb).
Proof.
  assert (Hout : ∀ x, output = x → targets_of (LRun output cb) x).
  { intros x <-. unfold targets_of; simpl. apply list_elem_of_In. simpl. auto. }
  unfold run. apply returns_bind.
  - apply returns_try_catch.
    + apply runs_bind; [apply call_callback_runs|].
      intros a. apply returns_runs, returns_ret.
    + intros e. apply returns_bind; [|intros; apply returns_ret].
      eapply returns_within_weaken; [exact Hout|by apply transition_returns].
  - intros [r|]; [|apply returns_ret].
    eapply returns_within_weaken; [exact Hout|apply unpack_returns].
Qed.

Lemma call_listener_returns (l : Listener) (v : Value) :
  returns_within (targets_of l) (call_listener l v).
Proof.
  destruct l as [output cb|output|output]; simpl.
  - apply run_returns.
  - eapply returns_within_weaken; [|apply resolve_fn_returns].
    intros x <-. unfold targets_of; simpl. apply list_elem_of_In. simpl. auto.
  - eapply returns_within_weaken; [|apply reject_fn_returns].
    intros x <-. unfold targets_of; simpl. apply list_elem_of_In. simpl. auto.
Qed.

Lemma run_microtask_returns (t : Microtask) :
  returns_within (targets_of (task_listener t)) (run_microtask t).
Proof.
  destruct t as [l src|l src]; simpl.
  - apply returns_bind; [|intros; apply call_listener_returns].
    intros w. eexists _, w. split; [done|constructor].
  - apply returns_bind; [|intros; apply call_listener_returns].
    intros w. eexists _, w. split; [done|constructor].
Qed.

Lemma call_executor_runs (this : ref) (body : Script) :
  runs_within (eq this) (call_executor this body).
Proof.
  induction body as [|e|v k IH|r k IH]; simpl.
  - apply returns_runs, returns_ret.
  - apply runs_throw.
  - apply runs_bind; [apply returns_runs, resolve_fn_returns|done].
  - apply runs_bind; [apply returns_runs, reject_fn_returns|done].
Qed.

(** The constructor with a callable executor: the new instance is the
    next reference, the executor runs once, before the constructor
    returns, and what it throws goes to [#reject]. *)
Lemma construct_callable (body : ref → M unit) (w : World) :
  construct (Callable body) w
  = let this := length (heap w) in
    match body this (set_heap (heap w ++ [fresh_promise]) w) with
    | (Normal _, w1) => (Normal this, w1)
    | (Thrown e, w1) => (Normal this, transition_world this (Rejected e) w1)
    end.
Proof.
  unfold construct, bind, alloc, try_catch; simpl.
  destruct (body _ _) as [[[]|e] w1]; [done|].
  unfold reject_fn. by rewrite transition_spec.
Qed.

Lemma construct_returns (T : ref → Prop) (body : ref → M unit) :
  (∀ this, runs_within (λ x, x = this ∨ T x) (body this)) →
  ∀ w, ∃ w', construct (Callable body) w = (Normal (length (heap w)), w')
             ∧ steps (λ x, x = length (heap w) ∨ T x) anything w w'.
Proof.
  intros Hb w. rewrite construct_callable. simpl.
  destruct (Hb (length (heap w)) (set_heap (heap w ++ [fresh_promise]) w))
    as (r & w1 & E & Hs).
  rewrite E. destruct r as [[]|e].
  - eexists; split; [done|]. by apply steps_alloc.
  - eexists; split; [done|]. apply steps_alloc.
    eapply steps_trans; [exact Hs|]. apply transition_steps; [by left|done|done].
Qed.

(** ** Where a rejection reason comes from *)


(** ** Self-resolution *)



(** ** The latch of a foreign [then] *)









(** ** Candidates without a usable [then] *)





(** ** Every operation is a run *)

Lemma user_handler_targets (a : Arg (Value → Completion)) :
  arg_targets (user_handler a) = [].
Proof. by destruct a. Qed.

Lemma new_PinkyPromise_returns (body : Script) (w : World) :
  ∃ w', new_PinkyPromise (Callable body) w = (Normal (length (heap w)), w')
        ∧ steps (eq (length (heap w))) anything w w'.
Proof.
  destruct (construct_returns (λ _, False) (λ this, call_executor this body)) with (w := w)
    as (w' & E & Hs).
  - intros this. eapply runs_within_weaken; [|apply call_executor_runs]. auto.
  - exists w'. split; [done|]. eapply steps_weaken; [|done|exact Hs].
    by intros x [->|[]].
Qed.

Lemma static_resolve_returns (v : Value) (w : World) :
  ∃ w', static_resolve v w = (Normal (length (heap w)), w')
        ∧ steps (eq (length (heap w))) anything w w'.
Proof.
  destruct (construct_returns (λ _, False) (λ this, resolve_fn this v)) with (w := w)
    as (w' & E & Hs).
  - intros this. apply returns_runs.
    eapply returns_within_weaken; [|apply resolve_fn_returns]. auto.
  - exists w'. split; [done|]. eapply steps_weaken; [|done|exact Hs].
    by intros x [->|[]].
Qed.

Lemma static_reject_returns (r : Value) (w : World) :
  ∃ w', static_reject r w = (Normal (length (heap w)), w')
        ∧ steps (eq (length (heap w))) anything w w'.
Proof.
  destruct (construct_returns (λ _, False) (λ this, reject_fn this r)) with (w := w)
    as (w' & E & Hs).
  - intros this. apply returns_runs.
    eapply returns_within_weaken; [|apply reject_fn_returns]. auto.
  - exists w'. split; [done|]. eapply steps_weaken; [|done|exact Hs].
    by intros x [->|[]].
Qed.

Lemma new_PinkyPromise_not_callable (v : Value) (w : World) :
  new_PinkyPromise (NotCallable v) w = (Thrown (not_a_function v), w).
Proof.
  unfold new_PinkyPromise, construct, bind, lift, throw, not_a_function.
  by destruct (display v).
Qed.

Lemma run_next_returns (w : World) :
  ∃ w', run_next w = (Normal tt, w')
        ∧ steps any_ref anything (set_microtasks (tail (microtasks w)) w) w'.
Proof.
  unfold run_next. destruct (microtasks w) as [|t q] eqn:E; simpl.
  - exists w. split; [done|].
    replace (set_microtasks [] w) with w; [constructor|].
    destruct w; simpl in *; by subst.
  - destruct (run_microtask_returns t (set_microtasks q w)) as ([] & w' & E' & Hs).
    exists w'. split; [done|]. by eapply steps_weaken.
Qed.

Lemma perform_runs (op : Operation) (w : World) :
  ∃ r w', perform op w = (r, w') ∧ steps any_ref anything (before op w) w'.
Proof.
  assert (Hany : ∀ T w1 w2, steps T anything w1 w2 → steps any_ref anything w1 w2).
  { intros T w1 w2. by apply steps_weaken. }
  destruct op as [[v|body]|p onF onR|p onR|v|r|p v|p r|p c v|p c r|]; simpl.
  - unfold bind. rewrite new_PinkyPromise_not_callable.
    eexists _, w. split; [done|constructor].
  - destruct (new_PinkyPromise_returns body w) as (w' & E & Hs).
    unfold bind. rewrite E. eauto.
  - unfold bind. rewrite then_spec. eexists _, _. split; [done|].
    eapply steps_then; [done|constructor].
  - unfold bind. rewrite catch_spec. eexists _, _. split; [done|].
    eapply steps_then; [done|constructor].
  - destruct (static_resolve_returns v w) as (w' & E & Hs).
    unfold bind. rewrite E. eauto.
  - destruct (static_reject_returns r w) as (w' & E & Hs).
    unfold bind. rewrite E. eauto.
  - destruct (resolve_fn_returns p v w) as ([] & w' & E & Hs). eauto.
  - destruct (reject_fn_returns p r w) as ([] & w' & E & Hs). eauto.
  - destruct (thenable_onfulfilled_returns p c v w) as ([] & w' & E & Hs). eauto.
  - destruct (thenable_onrejected_returns p c r w) as ([] & w' & E & Hs). eauto.
  - destruct (run_next_returns w) as (w' & E & Hs). eauto.
Qed.


(** ** The constructor and escaping exceptions *)

Lemma state_of_fresh (w : World) :
  state_of (length (heap w)) (set_heap (heap w ++ [fresh_promise]) w) = Pending.
Proof.
  rewrite state_of_promise, promise_of_alloc, <- state_of_promise.
  by apply state_of_dangling.
Qed.






(** ** The queue-state invariant *)

Lemma queue_inv_before (op : Operation) (w : World) :
  queue_inv w → queue_inv (before op w).
Proof. by destruct op. Qed.

Lemma state_of_before (op : Operation) (x : ref) (w : World) :
  state_of x (before op w) = state_of x w.
Proof. by destruct op. Qed.

Lemma queue_inv_empty : queue_inv empty_world.
Proof. intros x H. by destruct H. Qed.

(** C9.  Every operation preserves the invariant that a settled promise
    holds no listener; so after an operation a promise with a non-empty
    listener sequence is pending, and was pending before.  This includes
    [then] on a settled promise, whose two sequences are empty again when
    [then] returns. *)
Theorem operations_preserve_queue_inv (op : Operation) (w : World) :
  queue_inv w →
  let w' := world_after (perform op) w in
  queue_inv w'
  ∧ (∀ x, fulfilled_of x w' ≠ [] ∨ rejected_of x w' ≠ [] →
          state_of x w = Pending ∧ state_of x w' = Pending)
  ∧ (∀ p onF onR, op = OpThen p onF onR → state_of p w ≠ Pending →
                  fulfilled_of p w' = [] ∧ rejected_of p w' = []).
Proof.
  intros Hw w'.
  destruct (perform_runs op w) as (r & w1 & E & Hs).
  assert (w' = w1) as -> by (unfold w', world_after; by rewrite E).
  assert (Hw1 : queue_inv w1).
  { eapply steps_queue_inv; [exact Hs|]. by apply queue_inv_before. }
  split; [done|]. split.
  - intros x Hx.
    assert (Hp1 : state_of x w1 = Pending).
    { destruct (pending_dec (state_of x w1)) as [|Hn]; [done|].
      destruct (Hw1 x Hn) as [Ef Er]. rewrite Ef, Er in Hx. by destruct Hx. }
    split; [|done].
    destruct (pending_dec (state_of x w)) as [|Hn]; [done|].
    rewrite <- (state_of_before op) in Hn.
    rewrite <- (steps_stable _ _ _ _ x Hs Hn) in Hn. done.
  - intros p onF onR -> Hp. apply Hw1.
    simpl in Hs. by rewrite (steps_stable _ _ _ _ p Hs Hp).
Qed.

Lemma operations_preserve_queue_inv_witness :
  queue_inv (world_after (perform (OpThen 0 (NotCallable VUndefined) (NotCallable VUndefined)))
               settled_once).
Proof.
  refine (proj1 (operations_preserve_queue_inv
                   (OpThen 0 (NotCallable VUndefined) (NotCallable VUndefined))
                   settled_once _)).
  intros [|x] H; simpl; [done|]. by destruct H.
Defined.

(** ** Scheduling of reactions *)

Lemma tick_queue (t : Microtask) (q : list Microtask) (w : World) :
  microtasks w = t :: q →
  tick w = world_after (run_microtask t) (set_microtasks q w)
  ∧ ∃ added, microtasks (tick w) = q ++ added.
Proof.
  intros E. unfold tick, world_after, run_next. rewrite E. split; [done|].
  destruct (run_microtask_returns t (set_microtasks q w)) as ([] & w' & -> & Hs).
  apply steps_microtasks in Hs. done.
Qed.

(** The host runs the queued microtasks once each, oldest first. *)
Lemma executed_fifo (n : nat) (w : World) :
  n ≤ length (microtasks w) → executed n w = take n (microtasks w).
Proof.
  revert w. induction n as [|n IH]; intros w Hn; [done|].
  simpl. destruct (microtasks w) as [|t q] eqn:E; [done|].
  simpl in *. f_equal.
  destruct (tick_queue t q w E) as [_ [added Ea]].
  rewrite IH by (rewrite Ea, length_app; lia).
  rewrite Ea. apply take_app_le. lia.
Qed.

(** C2, as the code has it.  Only the entries of the sequence that matches
    the kind of settlement are scheduled, and entries of a promise that
    stays pending just wait.  A transition of a pending promise appends one
    microtask per matching entry to the queue, in attachment order, empties
    both sequences and calls no listener; [then] on a pending promise
    appends one entry to each sequence and schedules nothing; [then] on a
    settled promise schedules the one matching entry and calls nothing; a
    microtask calls its listener with the payload of the settled promise;
    and the host runs the queued microtasks once each, oldest first. *)
Theorem matching_reactions_scheduled_once (p : ref) (w : World) :
  p < length (heap w) → queue_inv w →
  (∀ s, state_of p w = Pending → settles s →
        let w' := world_after (transition p s) w in
        microtasks w' = microtasks w ++ map (matching_task s p) (matching_listeners s p w)
        ∧ fulfilled_of p w' = [] ∧ rejected_of p w' = []
        ∧ ∀ x, x ≠ p → promise_of x w' = promise_of x w)
  ∧ (∀ onF onR, state_of p w = Pending →
        let w' := world_after (then_ p onF onR) w in
        fulfilled_of p w' = fulfilled_of p w ++ [fulfilled_entry (length (heap w)) onF]
        ∧ rejected_of p w' = rejected_of p w ++ [rejected_entry (length (heap w)) onR]
        ∧ microtasks w' = microtasks w)
  ∧ (∀ onF onR, state_of p w ≠ Pending →
        let w' := world_after (then_ p onF onR) w in
        microtasks w'
        = microtasks w ++
          [matching_task (state_of p w) p
             match state_of p w with
             | Rejected _ => rejected_entry (length (heap w)) onR
             | _ => fulfilled_entry (length (heap w)) onF
             end]
        ∧ fulfilled_of p w' = [] ∧ rejected_of p w' = []
        ∧ ∀ x, state_of x w' = state_of x w)
  ∧ (∀ l, state_of p w ≠ Pending →
        run_microtask (matching_task (state_of p w) p l) w
        = call_listener l (payload (state_of p w)) w)
  ∧ (∀ n, n ≤ length (microtasks w) → executed n w = take n (microtasks w)).
Proof.
  intros Hr Hq. repeat split.
  - unfold world_after. rewrite transition_spec; simpl.
    rewrite transition_world_pending by done. rewrite microtasks_settle.
    by destruct s.
  - unfold world_after. rewrite transition_spec; simpl.
    rewrite transition_world_pending by done.
    rewrite fulfilled_of_promise, promise_of_settle.
    rewrite !bool_decide_eq_true_2 by done. simpl.
    unfold clear_if_settled; simpl. by destruct s.
  - unfold world_after. rewrite transition_spec; simpl.
    rewrite transition_world_pending by done.
    rewrite rejected_of_promise, promise_of_settle.
    rewrite !bool_decide_eq_true_2 by done. simpl.
    unfold clear_if_settled; simpl. by destruct s.
  - intros x Hx. unfold world_after. rewrite transition_spec; simpl.
    rewrite transition_world_pending by done.
    rewrite promise_of_settle. by rewrite bool_decide_eq_false_2.
  - unfold world_after. rewrite then_spec; simpl.
    rewrite !fulfilled_of_promise, promise_of_then.
    rewrite !bool_decide_eq_true_2 by (done || lia). simpl.
    unfold clear_if_settled; simpl. rewrite <- state_of_promise. by rewrite H.
  - unfold world_after. rewrite then_spec; simpl.
    rewrite !rejected_of_promise, promise_of_then.
    rewrite !bool_decide_eq_true_2 by (done || lia). simpl.
    unfold clear_if_settled; simpl. rewrite <- state_of_promise. by rewrite H.
  - unfold world_after. rewrite then_spec; simpl.
    rewrite microtasks_then by done. rewrite H. by rewrite app_nil_r.
  - unfold world_after. rewrite then_spec; simpl.
    rewrite microtasks_then by done. destruct (Hq p H) as [-> ->].
    by destruct (state_of p w).
  - unfold world_after. rewrite then_spec; simpl.
    apply (queue_inv_then p onF onR w Hq). by rewrite state_of_then.
  - unfold world_after. rewrite then_spec; simpl.
    apply (queue_inv_then p onF onR w Hq). by rewrite state_of_then.
  - intros x. unfold world_after. rewrite then_spec; simpl. apply state_of_then.
  - intros l Hp. destruct (state_of p w) eqn:E; [done| |];
      simpl; unfold bind, gets; by rewrite E.
  - intros n Hn. by apply executed_fifo.
Qed.

Lemma two_waiting_queue_inv : queue_inv two_waiting.
Proof.
  intros [|[|[|x]]] H; simpl; try done; by destruct H.
Qed.

Lemma matching_reactions_scheduled_once_witness :
  microtasks (world_after (transition 0 (Fulfilled (VNumber 5))) two_waiting)
  = [TaskFulfilled (LResolve 1) 0; TaskFulfilled (LResolve 2) 0].
Proof.
  refine (proj1 (proj1 (matching_reactions_scheduled_once 0 two_waiting _ _)
                   (Fulfilled (VNumber 5)) _ _));
    [simpl; lia|apply two_waiting_queue_inv|reflexivity|reflexivity].
Defined.

(** C2 as stated fails: the rejection entry that [then] appended to a
    promise which is then fulfilled is dropped, and no microtask ever calls
    it. *)
Lemma unmatched_reaction_never_runs :
  let w1 := world_after (then_ 0 (NotCallable VUndefined) (NotCallable VUndefined))
              one_pending in
  let w2 := world_after (resolve_fn 0 (VNumber 1)) w1 in
  rejected_of 0 w1 = [LReject 1]
  ∧ rejected_of 0 w2 = []
  ∧ microtasks w2 = [TaskFulfilled (LResolve 1) 0]
  ∧ microtasks (tick w2) = []
  ∧ ∀ n t, t ∈ executed n w2 → task_listener t ≠ LReject 1.
Proof.
  repeat split.
  intros n t Ht.
  destruct n as [|[|n]]; simpl in Ht.
  - by apply elem_of_nil in Ht.
  - apply list_elem_of_singleton in Ht. by subst.
  - apply list_elem_of_singleton in Ht. by subst.
Qed.

(** ** Listener sequences and queue, atom by atom *)

Lemma microtasks_then_any (q : ref) (onF onR : Arg Callback) (w : World) :
  microtasks (then_world q onF onR w)
  = microtasks w ++
    match state_of q w with
    | Pending => []
    | Fulfilled _ =>
        map (λ l, TaskFulfilled l q)
          (fulfilled_of q w ++ [fulfilled_entry (length (heap w)) onF])
    | Rejected _ =>
        map (λ l, TaskRejected l q)
          (rejected_of q w ++ [rejected_entry (length (heap w)) onR])
    end.
Proof.
  destruct (decide (q < length (heap w))) as [Hq|Hq]; [by apply microtasks_then|].
  rewrite (state_of_dangling q w) by lia.
  unfold then_world. rewrite microtasks_notify. simpl. f_equal.
  unfold scheduled.
  rewrite !state_of_promise, !promise_of_alter, promise_of_alloc.
  pose proof (state_of_dangling q w ltac:(lia)) as Hd.
  rewrite state_of_promise in Hd.
  by repeat (destruct (bool_decide _ && bool_decide _); simpl); rewrite Hd.
Qed.

Lemma fulfilled_of_settle (x p : ref) (s : PromiseState) (w : World) :
  settles s →
  fulfilled_of x (settle_world p s w)
  = if bool_decide (x = p) && bool_decide (p < length (heap w))
    then [] else fulfilled_of x w.
Proof.
  intros Hs. rewrite !fulfilled_of_promise, promise_of_settle.
  destruct (_ && _); [|done]. unfold clear_if_settled; simpl. by destruct s.
Qed.

Lemma rejected_of_settle (x p : ref) (s : PromiseState) (w : World) :
  settles s →
  rejected_of x (settle_world p s w)
  = if bool_decide (x = p) && bool_decide (p < length (heap w))
    then [] else rejected_of x w.
Proof.
  intros Hs. rewrite !rejected_of_promise, promise_of_settle.
  destruct (_ && _); [|done]. unfold clear_if_settled; simpl. by destruct s.
Qed.

Lemma fulfilled_of_then (x q : ref) (onF onR : Arg Callback) (w : World) :
  fulfilled_of x (then_world q onF onR w)
  = if bool_decide (x = q) && bool_decide (q ≤ length (heap w))
    then (if is_pending (state_of q w)
          then fulfilled_of q w ++ [fulfilled_entry (length (heap w)) onF]
          else [])
    else fulfilled_of x w.
Proof.
  rewrite !fulfilled_of_promise, state_of_promise, promise_of_then.
  case_bool_decide as Hx; simpl; [subst x|done].
  destruct (bool_decide (q ≤ length (heap w))); [|done].
  unfold clear_if_settled; simpl. by destruct (is_pending _).
Qed.

Lemma rejected_of_then (x q : ref) (onF onR : Arg Callback) (w : World) :
  rejected_of x (then_world q onF onR w)
  = if bool_decide (x = q) && bool_decide (q ≤ length (heap w))
    then (if is_pending (state_of q w)
          then rejected_of q w ++ [rejected_entry (length (heap w)) onR]
          else [])
    else rejected_of x w.
Proof.
  rewrite !rejected_of_promise, state_of_promise, promise_of_then.
  case_bool_decide as Hx; simpl; [subst x|done].
  destruct (bool_decide (q ≤ length (heap w))); [|done].
  unfold clear_if_settled; simpl. by destruct (is_pending _).
Qed.

Lemma fulfilled_entry_targets (n : ref) (a : Arg Callback) :
  listener_targets (fulfilled_entry n a) = n :: arg_targets a.
Proof. by destruct a. Qed.

Lemma rejected_entry_targets (n : ref) (a : Arg Callback) :
  listener_targets (rejected_entry n a) = n :: arg_targets a.
Proof. by destruct a. Qed.

Lemma elem_of_map {A B} (f : A → B) (l : list A) (y : B) :
  y ∈ map f l ↔ ∃ x, y = f x ∧ x ∈ l.
Proof.
  rewrite list_elem_of_In, in_map_iff. split.
  - intros (x & <- & Hx). exists x. by rewrite list_elem_of_In.
  - intros (x & -> & Hx). exists x. by rewrite <- list_elem_of_In.
Qed.

Lemma perform_runs_targets (op : Operation) (w : World) :
  ∃ r w', perform op w = (r, w')
          ∧ steps (op_targets op w) anything (before op w) w'.
Proof.
  destruct op as [[v|body]|p onF onR|p onR|v|r|p v|p r|p c v|p c r|]; simpl.
  - unfold bind. rewrite new_PinkyPromise_not_callable.
    eexists _, w. split; [done|constructor].
  - destruct (new_PinkyPromise_returns body w) as (w' & E & Hs).
    unfold bind. rewrite E. eauto.
  - unfold bind. rewrite then_spec. eexists _, _. split; [done|].
    eapply steps_then; [|constructor].
    intros x. rewrite !user_handler_targets. by intros ?%elem_of_nil.
  - unfold bind. rewrite catch_spec. eexists _, _. split; [done|].
    eapply steps_then; [|constructor].
    intros x. rewrite !user_handler_targets. by intros ?%elem_of_nil.
  - destruct (static_resolve_returns v w) as (w' & E & Hs).
    unfold bind. rewrite E. eauto.
  - destruct (static_reject_returns r w) as (w' & E & Hs).
    unfold bind. rewrite E. eauto.
  - destruct (resolve_fn_returns p v w) as ([] & w' & E & Hs). eauto.
  - destruct (reject_fn_returns p r w) as ([] & w' & E & Hs). eauto.
  - destruct (thenable_onfulfilled_returns p c v w) as ([] & w' & E & Hs). eauto.
  - destruct (thenable_onrejected_returns p c r w) as ([] & w' & E & Hs). eauto.
  - unfold run_next. destruct (microtasks w) as [|t rest] eqn:E; simpl.
    + exists (Normal tt), w. split; [done|].
      replace (set_microtasks [] w) with w; [constructor|].
      destruct w; simpl in *; by subst.
    + destruct (run_microtask_returns t (set_microtasks rest w)) as ([] & w' & E' & Hs).
      eauto.
Qed.

(** *** Turns of the host *)

Lemma drain_S (n : nat) (w : World) : drain (S n) w = drain n (tick w).
Proof. unfold drain. apply Nat.iter_succ_r. Qed.

Lemma drain_add (n m : nat) (w : World) : drain (n + m) w = drain m (drain n w).
Proof.
  revert w. induction n as [|n IH]; intros w; [done|].
  change (S n + m) with (S (n + m)). by rewrite !drain_S, IH.
Qed.

Lemma drain_perform_all (n : nat) (w : World) :
  drain n w = perform_all (replicate n OpMicrotask) w.
Proof.
  revert w. induction n as [|n IH]; intros w; [done|].
  rewrite drain_S, IH. done.
Qed.

(** After as many turns as there are microtasks in front of it, a
    microtask is at the head of the queue. *)
Lemma drain_queue (front rest : list Microtask) (w : World) :
  microtasks w = front ++ rest →
  ∃ added, microtasks (drain (length front) w) = rest ++ added.
Proof.
  revert rest w. induction front as [|t front IH]; intros rest w E.
  - exists []. by rewrite app_nil_r.
  - simpl length. rewrite drain_S.
    destruct (tick_queue t (front ++ rest) w E) as [_ [added Ea]].
    destruct (IH (rest ++ added) (tick w)) as [added' E'].
    { by rewrite Ea, app_assoc. }
    exists (added ++ added'). by rewrite E', app_assoc.
Qed.

Lemma perform_stable (op : Operation) (x : ref) (w : World) :
  state_of x w ≠ Pending → state_of x (world_after (perform op) w) = state_of x w.
Proof.
  intros Hx. destruct (perform_runs op w) as (r & w' & E & Hs).
  unfold world_after. rewrite E. simpl.
  rewrite (steps_stable _ _ _ _ x Hs); by rewrite state_of_before.
Qed.

Lemma perform_all_stable (ops : list Operation) (x : ref) (w : World) :
  state_of x w ≠ Pending → state_of x (perform_all ops w) = state_of x w.
Proof.
  revert w. induction ops as [|op ops IH]; intros w Hx; [done|].
  simpl. rewrite IH; rewrite perform_stable; done.
Qed.

Lemma drain_stable (n : nat) (x : ref) (w : World) :
  state_of x w ≠ Pending → state_of x (drain n w) = state_of x w.
Proof. rewrite drain_perform_all. apply perform_all_stable. Qed.

(** ** Assignments and the store *)

Lemma state_of_assign (id : nat) (member : ThenProp) (x : ref) (w : World) :
  state_of x (assign_world id member w) = assign_state id member (state_of x w).
Proof.
  unfold state_of, assign_world; simpl. rewrite list_lookup_fmap.
  by destruct (heap w !! x).
Qed.

Lemma fulfilled_of_assign (id : nat) (member : ThenProp) (x : ref) (w : World) :
  fulfilled_of x (assign_world id member w) = fulfilled_of x w.
Proof.
  unfold fulfilled_of, assign_world; simpl. rewrite list_lookup_fmap.
  by destruct (heap w !! x).
Qed.

Lemma rejected_of_assign (id : nat) (member : ThenProp) (x : ref) (w : World) :
  rejected_of x (assign_world id member w) = rejected_of x w.
Proof.
  unfold rejected_of, assign_world; simpl. rewrite list_lookup_fmap.
  by destruct (heap w !! x).
Qed.

Lemma length_heap_assign (id : nat) (member : ThenProp) (w : World) :
  length (heap (assign_world id member w)) = length (heap w).
Proof. unfold assign_world; simpl. by rewrite length_fmap. Qed.

Lemma pending_assign (id : nat) (member : ThenProp) (x : ref) (w : World) :
  state_of x (assign_world id member w) = Pending ↔ state_of x w = Pending.
Proof. rewrite state_of_assign. by destruct (state_of x w). Qed.

Lemma queue_inv_assign (id : nat) (member : ThenProp) (w : World) :
  queue_inv w → queue_inv (assign_world id member w).
Proof.
  intros Hq x Hx. rewrite fulfilled_of_assign, rejected_of_assign. apply Hq.
  by rewrite <- (pending_assign id member).
Qed.

Lemma untargeted_assign (id : nat) (member : ThenProp) (x : ref) (w : World) :
  untargeted x w → untargeted x (assign_world id member w).
Proof.
  intros [Hl Ht]. split; [|done].
  intros y l. rewrite fulfilled_of_assign, rejected_of_assign. apply Hl.
Qed.

(** ** A promise that follows another one, operation by operation *)

Section Link.

(** [out] follows [q] through the two listeners [LF] and [LR] that were
    appended to the sequences of [q]. *)
Variables (ok : Value → Prop) (q out : ref) (LF LR : Listener).

Hypothesis plain_ok : ∀ v, plain v = true → ok v.

Hypothesis out_in_LF : out ∈ listener_targets LF.
Hypothesis out_in_LR : out ∈ listener_targets LR.

Hypothesis LF_forwards : ∀ v w,
  ok v → state_of out w = Pending → out < length (heap w) →
  state_of out (world_after (call_listener LF v) w) = Fulfilled v.

Hypothesis LR_forwards : ∀ r w,
  state_of out w = Pending → out < length (heap w) →
  state_of out (world_after (call_listener LR r) w) = Rejected r.

Lemma linked_settle (x : ref) (s : PromiseState) (w : World) :
  x ≠ out → state_of x w = Pending → settles s →
  linked ok q out LF LR w → linked ok q out LF LR (settle_world x s w).
Proof.
  intros Hx Hp Hs [L1 L2 L3 L4 L5 L6 L7 L8 L9 L10].
  assert (Hstate : ∀ y, state_of y (settle_world x s w)
                        = if bool_decide (y = x) && bool_decide (x < length (heap w))
                          then s else state_of y w) by (intros; apply state_of_settle).
  assert (Hkeep : ∀ y, state_of y w ≠ Pending →
                       state_of y (settle_world x s w) = state_of y w).
  { intros y Hy. rewrite Hstate.
    destruct (bool_decide (y = x)) eqn:E; [|done].
    apply bool_decide_eq_true in E. subst. by destruct Hy. }
  split.
  - rewrite Hstate. by rewrite bool_decide_eq_false_2.
  - by rewrite length_heap_settle.
  - by rewrite length_heap_settle.
  - intros v. rewrite Hstate.
    destruct (_ && _); [intros ->; by apply plain_ok|apply L4].
  - intros y l. rewrite fulfilled_of_settle by done.
    destruct (_ && _); [by intros ?%elem_of_nil|apply L5].
  - intros y l. rewrite rejected_of_settle by done.
    destruct (_ && _); [by intros ?%elem_of_nil|apply L6].
  - intros t. rewrite microtasks_settle, elem_of_app. intros [Ht|Ht] Hout.
    + destruct (L7 t Ht Hout) as [[-> [v Hv]]|[-> [r Hr]]]; [left|right].
      * split; [done|]. exists v. rewrite Hkeep; [done|by rewrite Hv].
      * split; [done|]. exists r. rewrite Hkeep; [done|by rewrite Hr].
    + destruct s as [|v|r]; [by apply elem_of_nil in Ht| |].
      * apply elem_of_map in Ht as (l & -> & Hl). simpl in Hout.
        destruct (L5 x l Hl Hout) as [-> ->]. left. split; [done|].
        exists v. rewrite Hstate. by rewrite !bool_decide_eq_true_2.
      * apply elem_of_map in Ht as (l & -> & Hl). simpl in Hout.
        destruct (L6 x l Hl Hout) as [-> ->]. right. split; [done|].
        exists r. rewrite Hstate. by rewrite !bool_decide_eq_true_2.
  - rewrite Hstate, fulfilled_of_settle, rejected_of_settle by done.
    destruct (_ && _); [intros ->; by destruct Hs|apply L8].
  - intros v. rewrite Hstate, microtasks_settle, elem_of_app.
    destruct (bool_decide (q = x) && _) eqn:E.
    + intros ->. right. apply andb_prop in E as [E _].
      apply bool_decide_eq_true in E. subst x.
      apply elem_of_map. exists LF. split; [done|]. by apply L8.
    + intros Hv. left. by eapply L9.
  - intros r. rewrite Hstate, microtasks_settle, elem_of_app.
    destruct (bool_decide (q = x) && _) eqn:E.
    + intros ->. right. apply andb_prop in E as [E _].
      apply bool_decide_eq_true in E. subst x.
      apply elem_of_map. exists LR. split; [done|]. by apply L8.
    + intros Hr. left. by eapply L10.
Qed.

Lemma linked_then (y : ref) (onF onR : Arg Callback) (w : World) :
  (∀ z, z ∈ arg_targets onF ++ arg_targets onR → z ≠ out) →
  linked ok q out LF LR w → linked ok q out LF LR (then_world y onF onR w).
Proof.
  intros Hargs [L1 L2 L3 L4 L5 L6 L7 L8 L9 L10].
  assert (HF : out ∉ listener_targets (fulfilled_entry (length (heap w)) onF)).
  { rewrite fulfilled_entry_targets. intros [->|H]%elem_of_cons; [lia|].
    apply (Hargs out); [|done]. apply elem_of_app. by left. }
  assert (HR : out ∉ listener_targets (rejected_entry (length (heap w)) onR)).
  { rewrite rejected_entry_targets. intros [->|H]%elem_of_cons; [lia|].
    apply (Hargs out); [|done]. apply elem_of_app. by right. }
  split.
  - by rewrite state_of_then.
  - rewrite length_heap_then. lia.
  - rewrite length_heap_then. lia.
  - intros v. rewrite state_of_then. apply L4.
  - intros x l. rewrite fulfilled_of_then.
    destruct (bool_decide (x = y)) eqn:E; simpl; [|apply L5].
    apply bool_decide_eq_true in E. subst x.
    destruct (bool_decide (y ≤ length (heap w))); [|apply L5].
    destruct (is_pending (state_of y w)); [|by intros ?%elem_of_nil].
    intros [Hl|Hl%list_elem_of_singleton]%elem_of_app Hout; [by apply L5|by subst].
  - intros x l. rewrite rejected_of_then.
    destruct (bool_decide (x = y)) eqn:E; simpl; [|apply L6].
    apply bool_decide_eq_true in E. subst x.
    destruct (bool_decide (y ≤ length (heap w))); [|apply L6].
    destruct (is_pending (state_of y w)); [|by intros ?%elem_of_nil].
    intros [Hl|Hl%list_elem_of_singleton]%elem_of_app Hout; [by apply L6|by subst].
  - intros t. rewrite microtasks_then_any, elem_of_app, state_of_then.
    intros [Ht|Ht] Hout; [by apply L7|].
    destruct (state_of y w) as [|v|r] eqn:Ey; [by apply elem_of_nil in Ht| |].
    + apply elem_of_map in Ht as (l & -> & Hl). simpl in Hout.
      apply elem_of_app in Hl as [Hl|Hl%list_elem_of_singleton]; [|by subst].
      destruct (L5 y l Hl Hout) as [-> ->]. left. eauto.
    + apply elem_of_map in Ht as (l & -> & Hl). simpl in Hout.
      apply elem_of_app in Hl as [Hl|Hl%list_elem_of_singleton]; [|by subst].
      destruct (L6 y l Hl Hout) as [-> ->]. right. eauto.
  - rewrite state_of_then, fulfilled_of_then, rejected_of_then. intros Hq.
    destruct (L8 Hq) as [HLF HLR].
    destruct (bool_decide (q = y) && _) eqn:E; [|done].
    apply andb_prop in E as [E _]. apply bool_decide_eq_true in E. subst y.
    rewrite Hq. simpl. split; apply elem_of_app; by left.
  - intros v. rewrite state_of_then, microtasks_then_any, elem_of_app.
    intros Hv. left. by eapply L9.
  - intros r. rewrite state_of_then, microtasks_then_any, elem_of_app.
    intros Hr. left. by eapply L10.
Qed.

Lemma linked_alloc (w : World) :
  linked ok q out LF LR w → linked ok q out LF LR (set_heap (heap w ++ [fresh_promise]) w).
Proof.
  intros [L1 L2 L3 L4 L5 L6 L7 L8 L9 L10].
  assert (Hs : ∀ x, state_of x (set_heap (heap w ++ [fresh_promise]) w) = state_of x w).
  { intros x. by rewrite !state_of_promise, promise_of_alloc. }
  assert (Hf : ∀ x, fulfilled_of x (set_heap (heap w ++ [fresh_promise]) w)
                    = fulfilled_of x w).
  { intros x. by rewrite !fulfilled_of_promise, promise_of_alloc. }
  assert (Hr : ∀ x, rejected_of x (set_heap (heap w ++ [fresh_promise]) w)
                    = rejected_of x w).
  { intros x. by rewrite !rejected_of_promise, promise_of_alloc. }
  split; try (simpl; rewrite length_app; simpl; lia).
  - by rewrite Hs.
  - intros v. rewrite Hs. apply L4.
  - intros x l. rewrite Hf. apply L5.
  - intros x l. rewrite Hr. apply L6.
  - intros t. rewrite Hs. apply L7.
  - rewrite Hs, Hf, Hr. apply L8.
  - intros v. rewrite Hs. apply L9.
  - intros r. rewrite Hs. apply L10.
Qed.

Lemma linked_latches (ls : list bool) (w : World) :
  linked ok q out LF LR w → linked ok q out LF LR (set_latches ls w).
Proof. by intros []. Qed.

Lemma linked_steps T S w w' :
  steps T S w w' → ¬ T out → linked ok q out LF LR w → linked ok q out LF LR w'.
Proof.
  intros H HT.
  induction H as [w|p s w w' Hp HS Hs Hpend _ IH|y onF onR w w' Hargs _ IH
                  |w w' _ IH|w w' _ IH|c w w' _ IH]; intros Hl; auto.
  - apply IH, linked_settle; try done. by intros ->.
  - apply IH, linked_then; [|done]. intros z Hz ->. by apply HT, Hargs.
  - by apply IH, linked_alloc.
  - by apply IH, linked_latches.
  - by apply IH, linked_latches.
Qed.

Lemma adopted_steps T S w w' : steps T S w w' → adopted q out w → adopted q out w'.
Proof.
  intros H [Hq Hout].
  assert (Eq : state_of q w' = state_of q w) by by eapply steps_stable.
  assert (Eo : state_of out w' = state_of out w).
  { eapply steps_stable; [done|]. by rewrite Hout. }
  split; [by rewrite Eq|]. by rewrite Eq, Eo.
Qed.

Lemma adopted_before (op : Operation) (w : World) :
  adopted q out w → adopted q out (before op w).
Proof. by destruct op. Qed.

Lemma linked_pop (t : Microtask) (rest : list Microtask) (w : World) :
  microtasks w = t :: rest → out ∉ listener_targets (task_listener t) →
  linked ok q out LF LR w → linked ok q out LF LR (set_microtasks rest w).
Proof.
  intros E Ht [L1 L2 L3 L4 L5 L6 L7 L8 L9 L10].
  split; try done; simpl.
  - intros t' Ht'. apply L7. rewrite E. apply elem_of_cons. by right.
  - intros v Hv. specialize (L9 v Hv). rewrite E in L9.
    apply elem_of_cons in L9 as [<-|]; [by destruct Ht|done].
  - intros r Hr. specialize (L10 r Hr). rewrite E in L10.
    apply elem_of_cons in L10 as [<-|]; [by destruct Ht|done].
Qed.

(** The microtask made for [out] settles it as [q] is settled. *)
Lemma linked_run (t : Microtask) (rest : list Microtask) (w : World) :
  microtasks w = t :: rest → out ∈ listener_targets (task_listener t) →
  linked ok q out LF LR w → adopted q out (tick w).
Proof.
  intros E Ht Hl.
  assert (Hin : t ∈ microtasks w) by (rewrite E; apply elem_of_cons; by left).
  destruct (tick_queue t rest w E) as [Etick _]. rewrite Etick.
  destruct Hl as [L1 L2 L3 L4 L5 L6 L7 L8 L9 L10].
  destruct (run_microtask_returns t (set_microtasks rest w)) as ([] & w' & Erun & Hs).
  assert (Hq : ∀ s, state_of q w = s → s ≠ Pending →
                    state_of q (world_after (run_microtask t) (set_microtasks rest w)) = s).
  { intros s Hs' Hn. unfold world_after. rewrite Erun. simpl.
    rewrite (steps_stable _ _ _ _ q Hs); [done|]. simpl.
    change (state_of q (set_microtasks rest w)) with (state_of q w). by rewrite Hs'. }
  destruct (L7 t Hin Ht) as [[-> [v Hv]]|[-> [r Hr]]].
  - split; [by rewrite (Hq _ Hv)|]. rewrite (Hq _ Hv) by done.
    unfold world_after; simpl. unfold bind, gets.
    change (state_of q (set_microtasks rest w)) with (state_of q w). rewrite Hv. simpl.
    apply LF_forwards; [by eapply L4|done|done].
  - split; [by rewrite (Hq _ Hr)|]. rewrite (Hq _ Hr) by done.
    unfold world_after; simpl. unfold bind, gets.
    change (state_of q (set_microtasks rest w)) with (state_of q w). rewrite Hr. simpl.
    by apply LR_forwards.
Qed.

Lemma follows_perform (op : Operation) (w : World) :
  ¬ settles_directly out op → follows ok q out LF LR w → follows ok q out LF LR (world_after (perform op) w).
Proof.
  intros Hop [Hl|Ha].
  - destruct (perform_runs_targets op w) as (r & w' & E & Hs).
    unfold world_after. rewrite E. simpl.
    pose proof (link_out _ _ _ _ _ _ Hl) as Hrange.
    destruct op as [ex|p onF onR|p onR|v|r'|p v|p r'|p c v|p c r'|];
      try (left; eapply linked_steps; [exact Hs|simpl; simpl in Hop; (lia || tauto)|done]).
    simpl in Hs. destruct (microtasks w) as [|t rest] eqn:Eq; simpl in Hs.
    + left. eapply linked_steps; [exact Hs|tauto|]. by destruct w; simpl in *; subst.
    + destruct (decide (out ∈ listener_targets (task_listener t))) as [Hin|Hnin].
      * right. pose proof (linked_run t rest w Eq Hin Hl) as Had.
        unfold tick, world_after in Had. simpl in E. by rewrite E in Had.
      * left. eapply linked_steps; [exact Hs|done|]. by eapply linked_pop.
  - right. destruct (perform_runs op w) as (r & w' & E & Hs).
    unfold world_after. rewrite E. simpl.
    eapply adopted_steps; [exact Hs|]. by apply adopted_before.
Qed.

Lemma follows_perform_all (ops : list Operation) (w : World) :
  Forall (λ op, ¬ settles_directly out op) ops →
  follows ok q out LF LR w → follows ok q out LF LR (perform_all ops w).
Proof.
  intros Hops. revert w. induction Hops as [|op ops Hop _ IH]; intros w Hw; [done|].
  simpl. by apply IH, follows_perform.
Qed.

(** At any time [out] is pending or settled as [q] is; and it is settled
    as soon as [q] is settled and the queue is empty. *)
Lemma follows_outcome (w : World) :
  follows ok q out LF LR w →
  (state_of out w = Pending ∨ state_of out w = state_of q w)
  ∧ (state_of q w ≠ Pending → microtasks w = [] → state_of out w = state_of q w).
Proof.
  intros [Hl|[Hq Ho]]; [|by split; [right|]].
  split; [left; by apply (link_pending _ _ _ _ _ _ Hl)|].
  intros Hq Hempty. exfalso.
  destruct (state_of q w) as [|v|r] eqn:E; [done| |].
  - pose proof (link_scheduled_fulfilled _ _ _ _ _ _ Hl v E) as H.
    rewrite Hempty in H. by apply elem_of_nil in H.
  - pose proof (link_scheduled_rejected _ _ _ _ _ _ Hl r E) as H.
    rewrite Hempty in H. by apply elem_of_nil in H.
Qed.

Lemma adopted_perform (op : Operation) (w : World) :
  adopted q out w → adopted q out (world_after (perform op) w).
Proof.
  intros [Hq Ho]. split.
  - by rewrite perform_stable.
  - rewrite !perform_stable; [done|done|by rewrite Ho].
Qed.

Lemma adopted_drain (n : nat) (w : World) : adopted q out w → adopted q out (drain n w).
Proof.
  revert w. induction n as [|n IH]; intros w Hw; [done|].
  rewrite drain_S. apply IH. by apply (adopted_perform OpMicrotask).
Qed.

(** The microtask made for [out] is run once the microtasks queued
    before it have been run, and [out] is settled from then on. *)
Lemma follows_drained (front rest : list Microtask) (t : Microtask) (w : World) :
  follows ok q out LF LR w → microtasks w = front ++ t :: rest →
  out ∈ listener_targets (task_listener t) →
  ∀ n, length front < n → adopted q out (drain n w).
Proof.
  intros Hw E Ht n Hn.
  replace n with (length front + (1 + (n - length front - 1))) by lia.
  rewrite !drain_add. apply adopted_drain.
  destruct (drain_queue front (t :: rest) w E) as [added Eq].
  assert (Hf : follows ok q out LF LR (drain (length front) w)).
  { rewrite drain_perform_all. apply follows_perform_all; [|done].
    apply Forall_forall. intros op Hop. apply elem_of_replicate_inv in Hop.
    subst op. simpl. tauto. }
  destruct Hf as [Hl|Ha].
  - by eapply linked_run.
  - by apply (adopted_perform OpMicrotask).
Qed.

(** An assignment by calling code keeps the link as long as the value
    of a fulfilled [q] stays one that [LF] can take. *)
Lemma linked_assign (id : nat) (member : ThenProp) (w : World) :
  (∀ v, state_of q (assign_world id member w) = Fulfilled v → ok v) →
  linked ok q out LF LR w → linked ok q out LF LR (assign_world id member w).
Proof.
  intros Hok [L1 L2 L3 L4 L5 L6 L7 L8 L9 L10].
  split; try done.
  - by rewrite state_of_assign, L1.
  - by rewrite length_heap_assign.
  - by rewrite length_heap_assign.
  - intros x l. rewrite fulfilled_of_assign. apply L5.
  - intros x l. rewrite rejected_of_assign. apply L6.
  - intros t Ht Hout. rewrite state_of_assign.
    destruct (L7 t Ht Hout) as [[-> [v ->]]|[-> [r ->]]]; [left|right]; simpl; eauto.
  - rewrite state_of_assign, fulfilled_of_assign, rejected_of_assign.
    intros Hp. apply L8. by destruct (state_of q w).
  - intros v. rewrite state_of_assign. simpl.
    destruct (state_of q w) as [|v0|r0] eqn:E; try done. intros _. by eapply L9.
  - intros r. rewrite state_of_assign. simpl.
    destruct (state_of q w) as [|v0|r0] eqn:E; try done. intros _. by eapply L10.
Qed.

Lemma adopted_assign (id : nat) (member : ThenProp) (w : World) :
  adopted q out w → adopted q out (assign_world id member w).
Proof.
  intros [Hq Ho]. split; rewrite !state_of_assign; [|by rewrite Ho].
  by destruct (state_of q w).
Qed.

Lemma follows_act (a : Action) (w : World) :
  ¬ action_settles_directly out a →
  match a with
  | ActCall _ => True
  | ActAssignThen _ _ => ∀ v, state_of q (act a w) = Fulfilled v → ok v
  end →
  follows ok q out LF LR w → follows ok q out LF LR (act a w).
Proof.
  intros Ha Hok Hw. destruct a as [op|id member]; simpl.
  - by apply follows_perform.
  - destruct Hw as [Hl|Had]; [left; by apply linked_assign|right; by apply adopted_assign].
Qed.

End Link.

Lemma reachable_act (a : Action) (w : World) :
  reachable w →
  match a with ActCall op => op_in_range op w | ActAssignThen _ _ => True end →
  reachable (act a w).
Proof.
  intros Hw Ha. destruct a as [op|id member]; simpl.
  - by apply reachable_perform.
  - by apply reachable_assign.
Qed.

(** Runs of calls and assignments: the link holds on as long as no
    assignment gives the value of a fulfilled [q] a [then] to follow. *)
Lemma follows_act_all (q out : ref) (LF LR : Listener) (acts : list Action) (w : World) :
  out ∈ listener_targets LF → out ∈ listener_targets LR →
  (∀ v w', plain v = true → state_of out w' = Pending → out < length (heap w') →
           state_of out (world_after (call_listener LF v) w') = Fulfilled v) →
  (∀ r w', state_of out w' = Pending → out < length (heap w') →
           state_of out (world_after (call_listener LR r) w') = Rejected r) →
  Forall (λ a, ¬ action_settles_directly out a) acts →
  assignments_keep_plain q acts w →
  follows (λ v, plain v = true) q out LF LR w →
  follows (λ v, plain v = true) q out LF LR (act_all acts w).
Proof.
  intros HinF HinR HLF HLR Hacts. revert w.
  induction Hacts as [|a acts Ha _ IH]; intros w Hkeep Hw; [done|].
  destruct Hkeep as [Hhere Hrest]. simpl. apply IH; [done|].
  apply (follows_act (λ v, plain v = true) q out LF LR); try done.
Qed.

(** The link exists as soon as [then] has appended the two listeners. *)
(** ** Starting to follow *)

Lemma linked_start (ok : Value → Prop) (q out : ref) (onF onR : Arg Callback)
    (w0 : World) :
  q < length (heap w0) → out ≤ length (heap w0) → q ≠ out →
  state_of out w0 = Pending → (∀ v, state_of q w0 = Fulfilled v → ok v) →
  untargeted out w0 →
  let LF := fulfilled_entry (length (heap w0)) onF in
  let LR := rejected_entry (length (heap w0)) onR in
  linked ok q out LF LR (then_world q onF onR w0).
Proof.
  intros Hq Hout Hne Hp Hplain [Hlists Htasks] LF LR.
  assert (Hle : bool_decide (q ≤ length (heap w0)) = true)
    by (apply bool_decide_eq_true; lia).
  split.
  - by rewrite state_of_then.
  - rewrite length_heap_then. lia.
  - rewrite length_heap_then. lia.
  - intros v. rewrite state_of_then. apply Hplain.
  - intros x l. rewrite fulfilled_of_then.
    destruct (bool_decide (x = q)) eqn:E; simpl;
      [|intros Hl Ho; destruct (Hlists x l (or_introl Hl) Ho)].
    apply bool_decide_eq_true in E. subst x. rewrite Hle.
    destruct (is_pending (state_of q w0)); [|by intros ?%elem_of_nil].
    intros [Hl|Hl%list_elem_of_singleton]%elem_of_app Ho; [|done].
    destruct (Hlists q l (or_introl Hl) Ho).
  - intros x l. rewrite rejected_of_then.
    destruct (bool_decide (x = q)) eqn:E; simpl;
      [|intros Hl Ho; destruct (Hlists x l (or_intror Hl) Ho)].
    apply bool_decide_eq_true in E. subst x. rewrite Hle.
    destruct (is_pending (state_of q w0)); [|by intros ?%elem_of_nil].
    intros [Hl|Hl%list_elem_of_singleton]%elem_of_app Ho; [|done].
    destruct (Hlists q l (or_intror Hl) Ho).
  - intros t. rewrite microtasks_then_any, elem_of_app, state_of_then.
    intros [Ht|Ht] Ho; [destruct (Htasks t Ht Ho)|].
    destruct (state_of q w0) as [|v|r] eqn:Eq; [by apply elem_of_nil in Ht| |].
    + apply elem_of_map in Ht as (l & -> & Hl). simpl in Ho.
      apply elem_of_app in Hl as [Hl|Hl%list_elem_of_singleton].
      * destruct (Hlists q l (or_introl Hl) Ho).
      * subst l. left. eauto.
    + apply elem_of_map in Ht as (l & -> & Hl). simpl in Ho.
      apply elem_of_app in Hl as [Hl|Hl%list_elem_of_singleton].
      * destruct (Hlists q l (or_intror Hl) Ho).
      * subst l. right. eauto.
  - rewrite state_of_then, fulfilled_of_then, rejected_of_then. intros Eq.
    rewrite bool_decide_eq_true_2, Hle, Eq by done. simpl.
    split; apply elem_of_app; right; by apply list_elem_of_singleton.
  - intros v. rewrite state_of_then, microtasks_then_any. intros Eq. rewrite Eq.
    apply elem_of_app. right. apply elem_of_map. exists LF. split; [done|].
    apply elem_of_app. right. by apply list_elem_of_singleton.
  - intros r. rewrite state_of_then, microtasks_then_any. intros Eq. rewrite Eq.
    apply elem_of_app. right. apply elem_of_map. exists LR. split; [done|].
    apply elem_of_app. right. by apply list_elem_of_singleton.
Qed.

(** The two entries of [then] without callbacks forward to the derived
    promise. *)
Lemma LResolve_forwards (out : ref) (v : Value) (w : World) :
  plain v = true → state_of out w = Pending → out < length (heap w) →
  state_of out (world_after (call_listener (LResolve out) v) w) = Fulfilled v.
Proof.
  intros Hv Hp Hr. unfold world_after; simpl. unfold resolve_fn.
  rewrite unpack_plain by done. by apply state_of_settle_same.
Qed.

Lemma LReject_forwards (out : ref) (r : Value) (w : World) :
  state_of out w = Pending → out < length (heap w) →
  state_of out (world_after (call_listener (LReject out) r) w) = Rejected r.
Proof.
  intros Hp Hr. unfold world_after; simpl. rewrite reject_fn_spec. simpl.
  rewrite transition_world_pending by done. by apply state_of_settle_same.
Qed.



Lemma untargeted_alloc (x : ref) (w : World) :
  untargeted x w → untargeted x (set_heap (heap w ++ [fresh_promise]) w).
Proof.
  intros [Hl Ht]. split; [|done]. intros y l.
  rewrite fulfilled_of_promise, rejected_of_promise, promise_of_alloc.
  rewrite <- fulfilled_of_promise, <- rejected_of_promise. apply Hl.
Qed.

Lemma static_resolve_world (value : Value) (w : World) :
  static_resolve value w
  = (Normal (length (heap w)),
     world_after (unpack (length (heap w)) value)
       (set_heap (heap w ++ [fresh_promise]) w)).
Proof.
  unfold static_resolve. rewrite construct_callable. simpl. unfold resolve_fn, world_after.
  by destruct (unpack_steps (length (heap w)) value
                 (set_heap (heap w ++ [fresh_promise]) w)) as (w' & -> & _).
Qed.

(** ** Propagation through [then] without callbacks *)

(** C7.  [then] with two arguments that are not functions returns a new,
    pending promise.  The entry it appends for a fulfilment is the
    [resolve] of the derived promise, which reads [then] on the value
    again; so the value is forwarded when it has, then, no [then] that is
    callable or that throws.  Under that condition on the value of the
    source, at the call and after every assignment by calling code:
    whatever calling code does afterwards, short of calling the settle
    functions of the derived promise itself, the derived promise is pending
    or in the very state of the source, and it is in that state whenever
    the source is settled and the queue is empty.  For a source that is
    settled already, it has the state of the source, same kind and same
    value or reason, once the microtasks queued before the call and one
    more have run.  A rejection is forwarded whatever the reason is. *)
Theorem then_without_callbacks_forwards (p : ref) (a b : Value) (w : World) :
  p < length (heap w) → plain_payload p w → queue_inv w →
  untargeted (length (heap w)) w →
  let derived := length (heap w) in
  let w1 := world_after (then_ p (NotCallable a) (NotCallable b)) w in
  then_ p (NotCallable a) (NotCallable b) w = (Normal derived, w1)
  ∧ state_of derived w1 = Pending
  ∧ (∀ acts, Forall (λ a, ¬ action_settles_directly derived a) acts →
       assignments_keep_plain p acts w1 →
       let w2 := act_all acts w1 in
       (state_of derived w2 = Pending ∨ state_of derived w2 = state_of p w2)
       ∧ (state_of p w2 ≠ Pending → microtasks w2 = [] →
          state_of derived w2 = state_of p w2))
  ∧ (state_of p w ≠ Pending →
     ∀ n, length (microtasks w) < n → state_of derived (drain n w1) = state_of p w).
Proof.
  intros Hp Hplain Hq Hun derived w1.
  assert (Ew1 : w1 = then_world p (NotCallable a) (NotCallable b) w).
  { unfold w1, world_after. by rewrite then_spec. }
  assert (Hd : state_of derived w = Pending) by by apply state_of_dangling.
  assert (Hlink : linked (λ v, plain v = true) p derived
                    (LResolve derived) (LReject derived) w1).
  { rewrite Ew1.
    apply (linked_start (λ v, plain v = true) p derived (NotCallable a) (NotCallable b) w);
      try done; unfold derived; lia. }
  assert (HinF : derived ∈ listener_targets (LResolve derived))
    by by apply list_elem_of_singleton.
  assert (HinR : derived ∈ listener_targets (LReject derived))
    by by apply list_elem_of_singleton.
  split; [unfold w1, world_after; by rewrite then_spec|].
  split; [by apply (link_pending _ _ _ _ _ _ Hlink)|].
  split.
  - intros acts Hacts Hkeep w2.
    apply (follows_outcome (λ v, plain v = true) p derived
             (LResolve derived) (LReject derived)).
    apply follows_act_all; try done;
      [apply LResolve_forwards|apply LReject_forwards|by left].
  - intros Hs n Hn.
    assert (Eq : microtasks w1
                 = microtasks w ++
                   [matching_task (state_of p w) p
                      match state_of p w with
                      | Rejected _ => LReject derived
                      | _ => LResolve derived
                      end] ++ []).
    { rewrite Ew1, microtasks_then by done. destruct (Hq p Hs) as [-> ->].
      by destruct (state_of p w). }
    destruct (follows_drained (λ v, plain v = true) p derived
                (LResolve derived) (LReject derived)
                (λ v H, H) HinF HinR (LResolve_forwards derived) (LReject_forwards derived)
                _ _ _ w1 (or_introl Hlink) Eq) with (n := n) as [_ Had]; [|done|].
    { by destruct (state_of p w). }
    rewrite Had, drain_stable; rewrite Ew1, state_of_then; done.
Qed.

Lemma settled_once_untargeted : untargeted 1 settled_once.
Proof.
  split.
  - intros [|y] l [H|H]; simpl in H; by apply elem_of_nil in H.
  - intros t H. by apply elem_of_nil in H.
Qed.

Lemma settled_once_plain : plain_payload 0 settled_once.
Proof. by intros v [= <-]. Qed.

Lemma settled_once_queue_inv : queue_inv settled_once.
Proof. intros [|x] H; simpl; [done|]. by destruct H. Qed.

Lemma then_without_callbacks_forwards_witness :
  let w2 := act_all assignment_elsewhere
              (world_after (then_ 0 (NotCallable VUndefined) (NotCallable VNull))
                 settled_once) in
  state_of 1 w2 = state_of 0 w2.
Proof.
  refine (proj2 (proj1 (proj2 (proj2
            (then_without_callbacks_forwards 0 VUndefined VNull settled_once _ _ _ _)))
            assignment_elsewhere _ _) _ _).
  - simpl; lia.
  - apply settled_once_plain.
  - apply settled_once_queue_inv.
  - apply settled_once_untargeted.
  - repeat constructor; simpl; tauto.
  - split; [|done]. by intros v [= <-].
  - discriminate.
  - reflexivity.
Defined.

(** C7, the claim as it stands.  [p = resolve(o)] for an object [o]
    without [then]; calling code then assigns [o.then]; [d = p.then()]
    and the host runs the microtask.  The source [p] is fulfilled with
    [o], and the derived promise is rejected with the reason that the new
    [then] passes on: the value is not forwarded unchanged.  The world is
    one that calling code reaches from the empty one. *)
Lemma pass_through_rereads_then :
  let w := act_all then_after_assignment empty_world in
  reachable w
  ∧ state_of 0 w = Fulfilled changed_object
  ∧ state_of 1 w = Rejected (VString "changed")
  ∧ microtasks w = []
  ∧ state_of 1 w ≠ state_of 0 w.
Proof.
  split; [|by repeat split].
  unfold then_after_assignment, act_all. cbn [foldl].
  repeat (apply reachable_act; [|exact I]). apply reachable_empty.
Qed.

(** ** Adoption *)






(** ** The draft against the final implementation *)

Lemma draft_call_then_settled (this : ref) (body : Script) (s : Draft.DraftState) :
  Draft.settable s = false → ∃ r, Draft.call_then this body s = (r, s).
Proof.
  intros Hs. induction body as [|e|v k [r IH]|r0 k [r IH]].
  - by exists (Normal tt).
  - by exists (Thrown e).
  - exists r. simpl.
    assert (Draft.resolve_fn this v s = (Normal tt, s)) as ->; [|done].
    destruct v; simpl; by rewrite Hs.
  - exists r. simpl. unfold Draft.reject_fn. by rewrite Hs.
Qed.





(** ** Settle functions called twice *)

(** C1 at the input where the code departs from it: an executor that
    calls its [resolve] with a pending promise and then its [reject].  The
    second call rejects the new promise although [resolve] was called
    first, and the new promise no longer follows the inner one: when that
    one is fulfilled and the queue has been emptied, the new promise is
    still rejected. *)
Theorem resolve_with_pending_does_not_lock :
  let w1 := world_after (new_PinkyPromise (Callable resolve_then_reject)) inner_pending in
  let w2 := drain 2 (world_after (resolve_fn 0 (VNumber 5)) w1) in
  state_of 0 inner_pending = Pending
  ∧ result_of (new_PinkyPromise (Callable resolve_then_reject)) inner_pending = Normal 1
  ∧ state_of 1 w1 = Rejected (VString "late")
  ∧ state_of 0 w2 = Fulfilled (VNumber 5)
  ∧ microtasks w2 = []
  ∧ state_of 1 w2 = Rejected (VString "late").
Proof. by repeat split. Qed.

(** What does hold: once a promise is settled, every further call of a
    settle function, and every other operation, leaves its state alone. *)
Lemma settled_is_final (p : ref) (ops : list Operation) (w : World) :
  state_of p w ≠ Pending → state_of p (perform_all ops w) = state_of p w.
Proof. apply perform_all_stable. Qed.


(** ** Invariants of reachable worlds *)

Lemma untargeted_alloc_closed (w : World) :
  closed w → closed (set_heap (heap w ++ [fresh_promise]) w).
Proof.
  intros Hc x Hx. apply untargeted_alloc, Hc.
  simpl in Hx. rewrite length_app in Hx. simpl in Hx. lia.
Qed.

Lemma closed_settle (p : ref) (s : PromiseState) (w : World) :
  settles s → closed w → closed (settle_world p s w).
Proof.
  intros Hs Hc x Hx. rewrite length_heap_settle in Hx.
  destruct (Hc x Hx) as [Hl Ht]. split.
  - intros y l. rewrite fulfilled_of_settle, rejected_of_settle by done.
    destruct (_ && _); [|apply Hl]. by intros [?%elem_of_nil|?%elem_of_nil].
  - intros t. rewrite microtasks_settle, elem_of_app. intros [H|H]; [by apply Ht|].
    destruct s as [|v|r]; [by apply elem_of_nil in H| |];
      apply elem_of_map in H as (l & -> & Hin); simpl; apply (Hl p); auto.
Qed.

Lemma closed_then (y : ref) (onF onR : Arg Callback) (w : World) :
  (∀ z, z ∈ arg_targets onF ++ arg_targets onR → z ≤ length (heap w)) →
  closed w → closed (then_world y onF onR w).
Proof.
  intros Hargs Hc x Hx. rewrite length_heap_then in Hx.
  destruct (Hc x ltac:(lia)) as [Hl Ht].
  assert (HF : x ∉ listener_targets (fulfilled_entry (length (heap w)) onF)).
  { rewrite fulfilled_entry_targets. intros [->|H]%elem_of_cons; [lia|].
    assert (x ≤ length (heap w)); [|lia]. apply Hargs, elem_of_app. by left. }
  assert (HR : x ∉ listener_targets (rejected_entry (length (heap w)) onR)).
  { rewrite rejected_entry_targets. intros [->|H]%elem_of_cons; [lia|].
    assert (x ≤ length (heap w)); [|lia]. apply Hargs, elem_of_app. by right. }
  split.
  - intros z l. rewrite fulfilled_of_then, rejected_of_then.
    destruct (bool_decide (z = y) && _) eqn:E; [|apply Hl].
    apply andb_prop in E as [E _]. apply bool_decide_eq_true in E. subst z.
    destruct (is_pending (state_of y w)); [|by intros [?%elem_of_nil|?%elem_of_nil]].
    intros [[H|H%list_elem_of_singleton]%elem_of_app
           |[H|H%list_elem_of_singleton]%elem_of_app];
      [apply (Hl y); auto|by subst|apply (Hl y); auto|by subst].
  - intros t. rewrite microtasks_then_any, elem_of_app. intros [H|H]; [by apply Ht|].
    destruct (state_of y w) as [|v|r]; [by apply elem_of_nil in H| |];
      apply elem_of_map in H as (l & -> & [Hin|Hin%list_elem_of_singleton]%elem_of_app);
      simpl; try (by subst); apply (Hl y); auto.
Qed.

Lemma closed_steps T S w w' :
  steps T S w w' → (∀ x, T x → x ≤ length (heap w)) → closed w → closed w'.
Proof.
  induction 1 as [w|p s w w' Hp HS Hs Hpend _ IH|y onF onR w w' Hargs _ IH
                  |w w' _ IH|w w' _ IH|c w w' _ IH]; intros HT Hc; auto.
  - apply IH; [|by apply closed_settle].
    intros x Hx. rewrite length_heap_settle. by apply HT.
  - apply IH; [|apply closed_then; [|done]].
    + intros x Hx. rewrite length_heap_then. specialize (HT x Hx). lia.
    + intros z Hz. by apply HT, Hargs.
  - apply IH; [|by apply untargeted_alloc_closed].
    intros x Hx. simpl. rewrite length_app. specialize (HT x Hx). lia.
Qed.

Lemma closed_perform (op : Operation) (w : World) :
  op_in_range op w → closed w → closed (world_after (perform op) w).
Proof.
  intros Hop Hc. destruct (perform_runs_targets op w) as (r & w' & E & Hs).
  unfold world_after. rewrite E. simpl.
  eapply closed_steps; [exact Hs| |].
  - destruct op; simpl in *; try (intros x <-; lia); try done.
    destruct (microtasks w) as [|t rest] eqn:Eq; [done|]. simpl.
    intros x Hx. destruct (decide (x ≤ length (heap w))) as [|Hn]; [done|].
    destruct (Hc x ltac:(lia)) as [_ Ht]. destruct (Ht t); [|done].
    rewrite Eq. apply elem_of_cons. by left.
  - destruct op; try done. simpl. intros x Hx. destruct (Hc x Hx) as [Hl Ht].
    split; [done|]. intros t Hin. apply Ht.
    simpl in Hin. destruct (microtasks w); [done|]. apply elem_of_cons. by right.
Qed.

Lemma closed_assign (id : nat) (member : ThenProp) (w : World) :
  closed w → closed (assign_world id member w).
Proof.
  intros Hc x Hx. rewrite length_heap_assign in Hx. by apply untargeted_assign, Hc.
Qed.

(** The hypotheses on listeners and queue of the theorems on propagation
    and adoption hold in every world that calling code can reach from the
    empty one, by calls and by assignments; the condition on the value of
    the source is not of this kind, since an assignment can break it. *)
Lemma reachable_invariants (w : World) :
  reachable w → queue_inv w ∧ untargeted (length (heap w)) w.
Proof.
  intros H.
  enough (queue_inv w ∧ closed w) as (? & Hc).
  { split; [done|]. by apply Hc. }
  induction H as [|op w _ (Hq & Hc) Hop|id member w _ (Hq & Hc)].
  - split; [apply queue_inv_empty|].
    intros x _. split; [intros [|y] l [H|H]|intros t H]; by apply elem_of_nil in H.
  - split; [|by apply closed_perform].
    destruct (perform_runs op w) as (r & w' & E & Hs).
    unfold world_after. rewrite E. simpl.
    eapply steps_queue_inv; [exact Hs|]. by apply queue_inv_before.
  - split; [by apply queue_inv_assign|by apply closed_assign].
Qed.

(** ** A promise that reacts to another one, operation by operation *)

Section Reaction.

(** [out] was derived from [q] by [then]; [LF] and [LR] are the two
    listeners appended to [q], and [react] is the state they give [out]. *)
Variables (ok : Value → Prop) (q out : ref) (LF LR : Listener)
  (react : PromiseState → PromiseState).

Hypothesis plain_ok : ∀ v, plain v = true → ok v.

Hypothesis out_in_LF : out ∈ listener_targets LF.
Hypothesis out_in_LR : out ∈ listener_targets LR.

Hypothesis LF_reacts : ∀ v w,
  ok v → state_of out w = Pending → out < length (heap w) →
  state_of out (world_after (call_listener LF v) w) = react (Fulfilled v).

Hypothesis LR_reacts : ∀ r w,
  state_of out w = Pending → out < length (heap w) →
  state_of out (world_after (call_listener LR r) w) = react (Rejected r).

Hypothesis react_settles : ∀ s, s ≠ Pending → react s ≠ Pending.

Lemma linked_then_reaction (y : ref) (onF onR : Arg Callback) (w : World) :
  (∀ z, z ∈ arg_targets onF ++ arg_targets onR → z ≠ out) →
  linked ok q out LF LR w → linked ok q out LF LR (then_world y onF onR w).
Proof.
  intros Hargs [L1 L2 L3 L4 L5 L6 L7 L8 L9 L10].
  assert (HF : out ∉ listener_targets (fulfilled_entry (length (heap w)) onF)).
  { rewrite fulfilled_entry_targets. intros [->|H]%elem_of_cons; [lia|].
    apply (Hargs out); [|done]. apply elem_of_app. by left. }
  assert (HR : out ∉ listener_targets (rejected_entry (length (heap w)) onR)).
  { rewrite rejected_entry_targets. intros [->|H]%elem_of_cons; [lia|].
    apply (Hargs out); [|done]. apply elem_of_app. by right. }
  split.
  - by rewrite state_of_then.
  - rewrite length_heap_then. lia.
  - rewrite length_heap_then. lia.
  - intros v. rewrite state_of_then. apply L4.
  - intros x l. rewrite fulfilled_of_then.
    destruct (bool_decide (x = y)) eqn:E; simpl; [|apply L5].
    apply bool_decide_eq_true in E. subst x.
    destruct (bool_decide (y ≤ length (heap w))); [|apply L5].
    destruct (is_pending (state_of y w)); [|by intros ?%elem_of_nil].
    intros [Hl|Hl%list_elem_of_singleton]%elem_of_app Hout; [by apply L5|by subst].
  - intros x l. rewrite rejected_of_then.
    destruct (bool_decide (x = y)) eqn:E; simpl; [|apply L6].
    apply bool_decide_eq_true in E. subst x.
    destruct (bool_decide (y ≤ length (heap w))); [|apply L6].
    destruct (is_pending (state_of y w)); [|by intros ?%elem_of_nil].
    intros [Hl|Hl%list_elem_of_singleton]%elem_of_app Hout; [by apply L6|by subst].
  - intros t. rewrite microtasks_then_any, elem_of_app, state_of_then.
    intros [Ht|Ht] Hout; [by apply L7|].
    destruct (state_of y w) as [|v|r] eqn:Ey; [by apply elem_of_nil in Ht| |].
    + apply elem_of_map in Ht as (l & -> & Hl). simpl in Hout.
      apply elem_of_app in Hl as [Hl|Hl%list_elem_of_singleton]; [|by subst].
      destruct (L5 y l Hl Hout) as [-> ->]. left. eauto.
    + apply elem_of_map in Ht as (l & -> & Hl). simpl in Hout.
      apply elem_of_app in Hl as [Hl|Hl%list_elem_of_singleton]; [|by subst].
      destruct (L6 y l Hl Hout) as [-> ->]. right. eauto.
  - rewrite state_of_then, fulfilled_of_then, rejected_of_then. intros Hq.
    destruct (L8 Hq) as [HLF HLR].
    destruct (bool_decide (q = y) && _) eqn:E; [|done].
    apply andb_prop in E as [E _]. apply bool_decide_eq_true in E. subst y.
    rewrite Hq. simpl. split; apply elem_of_app; by left.
  - intros v. rewrite state_of_then, microtasks_then_any, elem_of_app.
    intros Hv. left. by eapply L9.
  - intros r. rewrite state_of_then, microtasks_then_any, elem_of_app.
    intros Hr. left. by eapply L10.
Qed.

Lemma linked_steps_reaction T S w w' :
  steps T S w w' → ¬ T out → linked ok q out LF LR w → linked ok q out LF LR w'.
Proof.
  intros H HT.
  induction H as [w|p s w w' Hp HS Hs Hpend _ IH|y onF onR w w' Hargs _ IH
                  |w w' _ IH|w w' _ IH|c w w' _ IH]; intros Hl; auto.
  - apply IH, linked_settle; try done. by intros ->.
  - apply IH, linked_then_reaction; [|done]. intros z Hz ->. by apply HT, Hargs.
  - by apply IH, linked_alloc.
  - by apply IH, linked_latches.
  - by apply IH, linked_latches.
Qed.

Lemma reacted_perform (op : Operation) (w : World) :
  reacted q out react w → reacted q out react (world_after (perform op) w).
Proof.
  intros [Hq Ho]. split.
  - by rewrite perform_stable.
  - rewrite !perform_stable; [done|done|]. rewrite Ho. by apply react_settles.
Qed.

Lemma reacted_drain (n : nat) (w : World) :
  reacted q out react w → reacted q out react (drain n w).
Proof.
  revert w. induction n as [|n IH]; intros w Hw; [done|].
  rewrite drain_S. apply IH. by apply (reacted_perform OpMicrotask).
Qed.

(** The microtask made for [out] settles it as the reaction says. *)
Lemma linked_reacts (t : Microtask) (rest : list Microtask) (w : World) :
  microtasks w = t :: rest → out ∈ listener_targets (task_listener t) →
  linked ok q out LF LR w → reacted q out react (tick w).
Proof.
  intros E Ht Hl.
  assert (Hin : t ∈ microtasks w) by (rewrite E; apply elem_of_cons; by left).
  destruct (tick_queue t rest w E) as [Etick _]. rewrite Etick.
  destruct Hl as [L1 L2 L3 L4 L5 L6 L7 L8 L9 L10].
  destruct (run_microtask_returns t (set_microtasks rest w)) as ([] & w' & Erun & Hs).
  assert (Hq : ∀ s, state_of q w = s → s ≠ Pending →
                    state_of q (world_after (run_microtask t) (set_microtasks rest w)) = s).
  { intros s Hs' Hn. unfold world_after. rewrite Erun. simpl.
    rewrite (steps_stable _ _ _ _ q Hs); [done|]. simpl.
    change (state_of q (set_microtasks rest w)) with (state_of q w). by rewrite Hs'. }
  destruct (L7 t Hin Ht) as [[-> [v Hv]]|[-> [r Hr]]].
  - split; [by rewrite (Hq _ Hv)|]. rewrite (Hq _ Hv) by done.
    unfold world_after; simpl. unfold bind, gets.
    change (state_of q (set_microtasks rest w)) with (state_of q w). rewrite Hv. simpl.
    apply LF_reacts; [by eapply L4|done|done].
  - split; [by rewrite (Hq _ Hr)|]. rewrite (Hq _ Hr) by done.
    unfold world_after; simpl. unfold bind, gets.
    change (state_of q (set_microtasks rest w)) with (state_of q w). rewrite Hr. simpl.
    by apply LR_reacts.
Qed.

Lemma reacts_perform (op : Operation) (w : World) :
  ¬ settles_directly out op →
  reacts ok q out LF LR react w → reacts ok q out LF LR react (world_after (perform op) w).
Proof.
  intros Hop [Hl|Ha]; [|right; by apply reacted_perform].
  destruct (perform_runs_targets op w) as (r & w' & E & Hs).
  pose proof (link_out _ _ _ _ _ _ Hl) as Hrange.
  destruct op as [ex|p onF onR|p onR|v|r'|p v|p r'|p c v|p c r'|];
    try (left; unfold world_after; rewrite E; simpl;
         eapply linked_steps_reaction;
         [exact Hs|simpl; simpl in Hop; (lia || tauto)|done]).
  simpl in Hs. destruct (microtasks w) as [|t rest] eqn:Eq; simpl in Hs.
  - left. unfold world_after. rewrite E. simpl.
    eapply linked_steps_reaction; [exact Hs|tauto|]. by destruct w; simpl in *; subst.
  - destruct (decide (out ∈ listener_targets (task_listener t))) as [Hin|Hnin].
    + right. by apply (linked_reacts t rest w Eq Hin Hl).
    + left. unfold world_after. rewrite E. simpl.
      eapply linked_steps_reaction; [exact Hs|done|]. by eapply linked_pop.
Qed.

Lemma reacts_perform_all (ops : list Operation) (w : World) :
  Forall (λ op, ¬ settles_directly out op) ops →
  reacts ok q out LF LR react w → reacts ok q out LF LR react (perform_all ops w).
Proof.
  intros Hops. revert w. induction Hops as [|op ops Hop _ IH]; intros w Hw; [done|].
  simpl. by apply IH, reacts_perform.
Qed.

Lemma reacts_outcome (w : World) :
  reacts ok q out LF LR react w →
  (state_of out w = Pending ∨ reacted q out react w)
  ∧ (state_of q w ≠ Pending → microtasks w = [] → reacted q out react w).
Proof.
  intros [Hl|Hr]; [|by split; [right|]].
  split; [left; by apply (link_pending _ _ _ _ _ _ Hl)|].
  intros Hq Hempty. exfalso.
  destruct (state_of q w) as [|v|r] eqn:E; [done| |].
  - pose proof (link_scheduled_fulfilled _ _ _ _ _ _ Hl v E) as H.
    rewrite Hempty in H. by apply elem_of_nil in H.
  - pose proof (link_scheduled_rejected _ _ _ _ _ _ Hl r E) as H.
    rewrite Hempty in H. by apply elem_of_nil in H.
Qed.

Lemma reacts_drained (front rest : list Microtask) (t : Microtask) (w : World) :
  reacts ok q out LF LR react w → microtasks w = front ++ t :: rest →
  out ∈ listener_targets (task_listener t) →
  ∀ n, length front < n → reacted q out react (drain n w).
Proof.
  intros Hw E Ht n Hn.
  replace n with (length front + (1 + (n - length front - 1))) by lia.
  rewrite !drain_add. apply reacted_drain.
  destruct (drain_queue front (t :: rest) w E) as [added Eq].
  assert (Hf : reacts ok q out LF LR react (drain (length front) w)).
  { rewrite drain_perform_all. apply reacts_perform_all; [|done].
    apply Forall_forall. intros op Hop. apply elem_of_replicate_inv in Hop.
    subst op. simpl. tauto. }
  destruct Hf as [Hl|Ha].
  - by eapply linked_reacts.
  - by apply (reacted_perform OpMicrotask).
Qed.

End Reaction.

(** ** Reactions with callbacks *)

Lemma reaction_outcome_settles (onF onR : Arg (Value → Completion)) (s : PromiseState) :
  s ≠ Pending → reaction_outcome onF onR s ≠ Pending.
Proof.
  destruct s as [|v|r]; [done| |]; intros _; simpl.
  - destruct onF as [|f]; [done|]. by destruct (f v).
  - destruct onR as [|f]; [done|]. by destruct (f r).
Qed.

Lemma run_user_callback (x : Value) (out : ref) (f : Value → Completion) (w : World) :
  match f x with Return r => plain r = true | Throw _ => True end →
  state_of out w = Pending → out < length (heap w) →
  state_of out (world_after (run x out (CbUser f)) w) = completion_state (f x).
Proof.
  intros Hf Hp Hr.
  unfold world_after, run, call_callback, bind, try_catch, ret, throw.
  destruct (f x) as [r|e]; simpl.
  - rewrite unpack_plain by done. by apply state_of_settle_same.
  - rewrite transition_spec, transition_world_pending by done. simpl.
    by apply state_of_settle_same.
Qed.

Lemma fulfilled_entry_reacts (out : ref) (onF onR : Arg (Value → Completion))
    (v : Value) (w : World) :
  returns_plain onF →
  passes_on onF v → state_of out w = Pending → out < length (heap w) →
  state_of out (world_after (call_listener (fulfilled_entry out (user_handler onF)) v) w)
  = reaction_outcome onF onR (Fulfilled v).
Proof.
  intros Hplain Hv Hp Hr. destruct onF as [a|f]; simpl.
  - by apply LResolve_forwards.
  - apply run_user_callback; try done. apply Hplain.
Qed.

Lemma rejected_entry_reacts (out : ref) (onF onR : Arg (Value → Completion))
    (r : Value) (w : World) :
  returns_plain onR →
  state_of out w = Pending → out < length (heap w) →
  state_of out (world_after (call_listener (rejected_entry out (user_handler onR)) r) w)
  = reaction_outcome onF onR (Rejected r).
Proof.
  intros Hplain Hp Hr. destruct onR as [a|f]; simpl.
  - by apply LReject_forwards.
  - apply run_user_callback; try done. apply Hplain.
Qed.

Lemma entry_targets_output (out : ref) (a : Arg Callback) :
  out ∈ listener_targets (fulfilled_entry out a)
  ∧ out ∈ listener_targets (rejected_entry out a).
Proof.
  rewrite fulfilled_entry_targets, rejected_entry_targets.
  split; apply elem_of_cons; by left.
Qed.

(** What [then] with callbacks of the user leads to, on worlds. *)
Lemma then_world_reacts (p : ref) (onF onR : Arg (Value → Completion)) (w : World) :
  p < length (heap w) → (∀ v, state_of p w = Fulfilled v → passes_on onF v) →
  queue_inv w →
  untargeted (length (heap w)) w →
  returns_plain onF → returns_plain onR →
  let derived := length (heap w) in
  let w1 := then_world p (user_handler onF) (user_handler onR) w in
  (∀ ops, Forall (λ op, ¬ settles_directly derived op) ops →
     let w2 := perform_all ops w1 in
     (state_of derived w2 = Pending
      ∨ (state_of p w2 ≠ Pending
         ∧ state_of derived w2 = reaction_outcome onF onR (state_of p w2)))
     ∧ (state_of p w2 ≠ Pending → microtasks w2 = [] →
        state_of derived w2 = reaction_outcome onF onR (state_of p w2)))
  ∧ (state_of p w ≠ Pending →
     ∀ n, length (microtasks w) < n →
          state_of derived (drain n w1) = reaction_outcome onF onR (state_of p w)).
Proof.
  intros Hp Hplain Hq Hun HF HR derived w1.
  set (LF := fulfilled_entry derived (user_handler onF)).
  set (LR := rejected_entry derived (user_handler onR)).
  assert (Hd : state_of derived w = Pending) by by apply state_of_dangling.
  assert (Hok : ∀ v, plain v = true → passes_on onF v) by (intros v; by destruct onF).
  assert (Hlink : linked (passes_on onF) p derived LF LR w1).
  { apply (linked_start (passes_on onF) p derived (user_handler onF) (user_handler onR) w);
      try done; unfold derived; lia. }
  destruct (entry_targets_output derived (user_handler onF)) as [HinF _].
  destruct (entry_targets_output derived (user_handler onR)) as [_ HinR].
  assert (HLF : ∀ v w', passes_on onF v → state_of derived w' = Pending →
                        derived < length (heap w') →
                        state_of derived (world_after (call_listener LF v) w')
                        = reaction_outcome onF onR (Fulfilled v)).
  { intros. by apply fulfilled_entry_reacts. }
  assert (HLR : ∀ r w', state_of derived w' = Pending → derived < length (heap w') →
                        state_of derived (world_after (call_listener LR r) w')
                        = reaction_outcome onF onR (Rejected r)).
  { intros. by apply rejected_entry_reacts. }
  split.
  - intros ops Hops w2.
    destruct (reacts_outcome (passes_on onF) p derived LF LR
                (reaction_outcome onF onR) w2) as [H1 H2].
    { apply reacts_perform_all; try done; [apply reaction_outcome_settles|by left]. }
    split; [destruct H1 as [|[? ?]]; auto|].
    intros Hs He. by destruct (H2 Hs He).
  - intros Hs n Hn.
    assert (Eq : microtasks w1
                 = microtasks w ++
                   [matching_task (state_of p w) p
                      match state_of p w with
                      | Rejected _ => LR
                      | _ => LF
                      end] ++ []).
    { unfold w1. rewrite microtasks_then by done. destruct (Hq p Hs) as [-> ->].
      by destruct (state_of p w). }
    destruct (reacts_drained (passes_on onF) p derived LF LR (reaction_outcome onF onR)
                Hok HinF HinR HLF HLR (reaction_outcome_settles onF onR)
                _ _ _ w1 (or_introl Hlink) Eq) with (n := n) as [_ Had]; [|done|].
    { by destruct (state_of p w). }
    rewrite Had, drain_stable; unfold w1; rewrite state_of_then; done.
Qed.

(** [then] with callbacks that return plain values or throw: whatever
    calls into the library follow, short of calling the settle functions
    of the derived promise itself, the derived promise is pending, or the
    source is settled and the derived promise holds the outcome of the
    matching callback on the payload of the source: what the callback
    returned, as a fulfilment; what it threw, as a rejection.  When that
    callback is not a function the outcome is the payload itself, same
    kind; for a fulfilment this asks that the value have no [then] that is
    callable or that throws, since the derived promise is then resolved
    with it.  The derived promise holds the outcome whenever the source is
    settled and the queue is empty, and, for a source settled already,
    after the microtasks queued before the call and one more. *)
Theorem then_settles_derived_by_reaction
    (p : ref) (onF onR : Arg (Value → Completion)) (w : World) :
  p < length (heap w) → (∀ v, state_of p w = Fulfilled v → passes_on onF v) →
  queue_inv w →
  untargeted (length (heap w)) w →
  returns_plain onF → returns_plain onR →
  let derived := length (heap w) in
  let w1 := world_after (then_ p (user_handler onF) (user_handler onR)) w in
  result_of (then_ p (user_handler onF) (user_handler onR)) w = Normal derived
  ∧ (∀ ops, Forall (λ op, ¬ settles_directly derived op) ops →
       let w2 := perform_all ops w1 in
       (state_of derived w2 = Pending
        ∨ (state_of p w2 ≠ Pending
           ∧ state_of derived w2 = reaction_outcome onF onR (state_of p w2)))
       ∧ (state_of p w2 ≠ Pending → microtasks w2 = [] →
          state_of derived w2 = reaction_outcome onF onR (state_of p w2)))
  ∧ (state_of p w ≠ Pending →
     ∀ n, length (microtasks w) < n →
          state_of derived (drain n w1) = reaction_outcome onF onR (state_of p w)).
Proof.
  intros Hp Hplain Hq Hun HF HR derived w1.
  assert (Ew1 : w1 = then_world p (user_handler onF) (user_handler onR) w).
  { unfold w1, world_after. by rewrite then_spec. }
  split; [unfold result_of; by rewrite then_spec|].
  rewrite Ew1. by apply then_world_reacts.
Qed.

(** [catch(onrejected)]: for a rejected source the derived promise holds
    what the callback made of the reason (returned: fulfilled; thrown:
    rejected), or the same rejection when [onrejected] is not a function.
    For a source fulfilled with a value that has no [then] that is
    callable or that throws, the derived promise is fulfilled with the
    same value: [catch] is [then(undefined, onrejected)], whose entry for
    a fulfilment resolves the derived promise with the value. *)
Theorem catch_recovers_or_passes_on
    (p : ref) (onR : Arg (Value → Completion)) (w : World) :
  p < length (heap w) → plain_payload p w → queue_inv w →
  untargeted (length (heap w)) w → returns_plain onR →
  let derived := length (heap w) in
  let w1 := world_after (catch_ p (user_handler onR)) w in
  result_of (catch_ p (user_handler onR)) w = Normal derived
  ∧ (∀ v n, state_of p w = Fulfilled v → length (microtasks w) < n →
            state_of derived (drain n w1) = Fulfilled v)
  ∧ (∀ r n, state_of p w = Rejected r → length (microtasks w) < n →
            state_of derived (drain n w1)
            = match onR with
              | Callable f => completion_state (f r)
              | NotCallable _ => Rejected r
              end)
  ∧ (∀ ops, Forall (λ op, ¬ settles_directly derived op) ops →
       let w2 := perform_all ops w1 in
       state_of p w2 ≠ Pending → microtasks w2 = [] →
       state_of derived w2
       = reaction_outcome (NotCallable VUndefined) onR (state_of p w2)).
Proof.
  intros Hp Hplain Hq Hun HR derived w1.
  assert (Ew1 : w1 = then_world p (user_handler (NotCallable VUndefined))
                       (user_handler onR) w).
  { unfold w1, world_after. by rewrite catch_spec. }
  destruct (then_world_reacts p (NotCallable VUndefined) onR w) as [Hops Hdrain];
    try done.
  split; [unfold result_of; by rewrite catch_spec|]. rewrite Ew1.
  split; [|split].
  - intros v n Hv Hn. rewrite Hdrain; [by rewrite Hv|by rewrite Hv|done].
  - intros r n Hr Hn. rewrite Hdrain; [by rewrite Hr|by rewrite Hr|done].
  - intros ops Hf w2. by apply Hops.
Qed.

Lemma add_one_plain : returns_plain (Callable add_one).
Proof. intros v. by destruct v. Qed.

Lemma length_of_plain : returns_plain (Callable length_of).
Proof. intros v. by destruct v. Qed.

Lemma rejected_once_invariants :
  plain_payload 0 rejected_once ∧ queue_inv rejected_once ∧ untargeted 1 rejected_once.
Proof.
  split; [|split; [|split]].
  - by intros v.
  - intros [|x] H; simpl; [done|]. by destruct H.
  - intros [|y] l [H|H]; simpl in H; by apply elem_of_nil in H.
  - intros t H. by apply elem_of_nil in H.
Qed.

Lemma then_settles_derived_by_reaction_witness :
  state_of 1 (drain 1 (world_after
                         (then_ 0 (user_handler (Callable add_one))
                            (user_handler (NotCallable VUndefined))) settled_once))
  = Fulfilled (VNumber 2).
Proof.
  refine (proj2 (proj2
            (then_settles_derived_by_reaction 0 (Callable add_one) (NotCallable VUndefined)
               settled_once _ _ _ _ _ _)) _ 1 _).
  - simpl; lia.
  - by intros v _.
  - apply settled_once_queue_inv.
  - apply settled_once_untargeted.
  - apply add_one_plain.
  - exact I.
  - discriminate.
  - simpl; lia.
Defined.

Lemma catch_recovers_or_passes_on_witness :
  state_of 1 (drain 1 (world_after (catch_ 0 (user_handler (Callable length_of)))
                         rejected_once))
  = Fulfilled (VNumber 4).
Proof.
  refine (proj1 (proj2 (proj2
            (catch_recovers_or_passes_on 0 (Callable length_of) rejected_once _ _ _ _ _)))
            (VString "boom") 1 _ _).
  - simpl; lia.
  - apply rejected_once_invariants.
  - apply rejected_once_invariants.
  - apply rejected_once_invariants.
  - apply length_of_plain.
  - reflexivity.
  - simpl; lia.
Defined.

(** ** What [#run] does *)



(** ** What [then] does at once *)

(** [then] returns the next reference; when it returns, the new promise is
    pending and no promise has changed state, whatever the status of the
    source and whatever the two arguments; the queue has only grown, and
    not at all when the source is pending. *)
Theorem then_returns_pending_promise (q : ref) (onF onR : Arg Callback) (w : World) :
  let w' := world_after (then_ q onF onR) w in
  result_of (then_ q onF onR) w = Normal (length (heap w))
  ∧ state_of (length (heap w)) w' = Pending
  ∧ (∀ x, state_of x w' = state_of x w)
  ∧ (∃ added, microtasks w' = microtasks w ++ added)
  ∧ (state_of q w = Pending → microtasks w' = microtasks w)
  ∧ latches w' = latches w.
Proof.
  intros w'. unfold w', world_after, result_of. rewrite then_spec. simpl.
  split; [done|]. split; [|split; [|split; [|split]]].
  - rewrite state_of_then. by apply state_of_dangling.
  - intros x. apply state_of_then.
  - rewrite microtasks_then_any. eauto.
  - intros Hp. rewrite microtasks_then_any, Hp. by rewrite app_nil_r.
  - apply latches_then.
Qed.

(** ** Locality, order and finality of operations *)

(** An operation changes the state of no promise other than those it can
    settle: the new instance for the constructor and the static functions,
    the promise of a settle function or arrow, the promises named by the
    listener for a microtask, and none for [then] and [catch]. *)
Theorem operations_settle_only_their_targets (op : Operation) (w : World) (x : ref) :
  ¬ op_targets op w x →
  state_of x (world_after (perform op) w) = state_of x w.
Proof.
  intros Hx. destruct (perform_runs_targets op w) as (r & w' & E & Hs).
  unfold world_after. rewrite E. simpl.
  rewrite (steps_frame _ _ _ _ x Hs Hx). apply state_of_before.
Qed.

Lemma operations_settle_only_their_targets_witness :
  state_of 0 (world_after (perform (OpStaticReject VNull)) settled_once)
  = state_of 0 settled_once.
Proof.
  apply (operations_settle_only_their_targets (OpStaticReject VNull) settled_once 0).
  simpl. lia.
Defined.

(** No operation removes or reorders queued microtasks: an operation
    appends to the queue it finds, and the host's turn removes the oldest
    microtask only. *)
Theorem operations_append_to_queue (op : Operation) (w : World) :
  ∃ added,
    microtasks (world_after (perform op) w)
    = match op with
      | OpMicrotask => tail (microtasks w)
      | _ => microtasks w
      end ++ added.
Proof.
  destruct (perform_runs op w) as (r & w' & E & Hs).
  unfold world_after. rewrite E. simpl.
  apply steps_microtasks in Hs as [added ->]. exists added. by destruct op.
Qed.

Lemma settled_is_final_witness :
  state_of 0 (perform_all [OpResolve 0 (VNumber 2); OpReject 0 VNull; OpMicrotask]
                settled_once)
  = state_of 0 settled_once.
Proof.
  apply (settled_is_final 0 [OpResolve 0 (VNumber 2); OpReject 0 VNull; OpMicrotask]
           settled_once).
  discriminate.
Defined.

(** The library fulfils a promise with plain values only: a promise that
    an operation finds pending and leaves fulfilled holds a value that is
    no instance of the class and whose [then], as the operation read it,
    is neither callable nor throwing; and an operation keeps it true that
    every fulfilled promise holds such a value.  An assignment by calling
    code does not: after [o.then = ...] a promise fulfilled with [o]
    holds a thenable. *)
Theorem operations_fulfil_with_plain_values (op : Operation) (w : World) :
  (∀ x v, state_of x w = Pending →
          state_of x (world_after (perform op) w) = Fulfilled v → plain v = true)
  ∧ (plain_fulfilled w → plain_fulfilled (world_after (perform op) w))
  ∧ (∀ id member x,
       state_of x w = Fulfilled (VObject id ThenMissing) →
       state_of x (assign_world id member w) = Fulfilled (VObject id member)).
Proof.
  destruct (perform_runs op w) as (r & w' & E & Hs).
  unfold world_after. rewrite E. simpl. split; [|split].
  - intros x v Hp Hv.
    destruct (steps_outcome _ _ _ _ x Hs) as [Hsame|(_ & _ & Hset & _)].
    + rewrite state_of_before, Hp, Hv in Hsame. discriminate.
    + by rewrite Hv in Hset.
  - intros Hplain. eapply steps_plain_fulfilled; [exact Hs|]. by destruct op.
  - intros id member x Hx. rewrite state_of_assign, Hx. simpl.
    by rewrite bool_decide_eq_true_2.
Qed.

Lemma operations_fulfil_with_plain_values_witness : plain (VNumber 7) = true.
Proof.
  refine (proj1 (operations_fulfil_with_plain_values
                   (OpStaticResolve (VObject 0 (ThenCallable (SResolve (VNumber 7) SReturn))))
                   empty_world) 0 (VNumber 7) _ _); reflexivity.
Defined.

(** ** The static functions and the adapter *)

(** [PinkyPromise.reject(reason)] returns a new promise that is rejected
    with [reason] as it is, also when [reason] is an instance of the class
    or a thenable; [PinkyPromise.resolve(value)] for a plain value returns
    a new promise that is already fulfilled with it.  Neither schedules a
    microtask nor touches another promise. *)
Theorem static_functions_settle_at_once (w : World) :
  let this := length (heap w) in
  (∀ reason,
     let w' := world_after (static_reject reason) w in
     result_of (static_reject reason) w = Normal this
     ∧ state_of this w' = Rejected reason
     ∧ microtasks w' = microtasks w
     ∧ ∀ x, x ≠ this → promise_of x w' = promise_of x w)
  ∧ (∀ value, plain value = true →
     let w' := world_after (static_resolve value) w in
     result_of (static_resolve value) w = Normal this
     ∧ state_of this w' = Fulfilled value
     ∧ microtasks w' = microtasks w
     ∧ ∀ x, x ≠ this → promise_of x w' = promise_of x w).
Proof.
  intros this.
  set (w0 := set_heap (heap w ++ [fresh_promise]) w).
  assert (Hp : state_of this w0 = Pending) by apply state_of_fresh.
  assert (Hr : this < length (heap w0)).
  { unfold w0, this; simpl. rewrite length_app; simpl; lia. }
  assert (Hsettle : ∀ s, settles s →
            state_of this (settle_world this s w0) = s
            ∧ microtasks (settle_world this s w0) = microtasks w
            ∧ ∀ x, x ≠ this → promise_of x (settle_world this s w0) = promise_of x w).
  { intros s Hs. split; [by apply state_of_settle_same|]. split.
    - rewrite microtasks_settle.
      rewrite fulfilled_of_promise, rejected_of_promise. unfold w0.
      rewrite promise_of_alloc. unfold promise_of, this.
      rewrite lookup_ge_None_2 by lia. simpl. destruct s; by rewrite app_nil_r.
    - intros x Hx. rewrite promise_of_settle, bool_decide_eq_false_2 by done.
      apply promise_of_alloc. }
  split.
  - intros reason w'.
    assert (E : static_reject reason w
                = (Normal this, settle_world this (Rejected reason) w0)).
    { unfold static_reject. rewrite construct_callable. simpl. fold this w0.
      rewrite reject_fn_spec. by rewrite transition_world_pending. }
    unfold w', world_after, result_of. rewrite E. simpl.
    split; [done|]. by apply Hsettle.
  - intros value Hv w'.
    assert (E : static_resolve value w
                = (Normal this, settle_world this (Fulfilled value) w0)).
    { rewrite static_resolve_world. fold this w0. unfold world_after.
      by rewrite unpack_plain. }
    unfold w', world_after, result_of. rewrite E. simpl.
    split; [done|]. by apply Hsettle.
Qed.

Lemma static_functions_settle_at_once_witness :
  state_of 0 (world_after (static_resolve (VNumber 3)) empty_world) = Fulfilled (VNumber 3).
Proof.
  refine (proj1 (proj2 (proj2 (static_functions_settle_at_once empty_world)
                          (VNumber 3) _))).
  reflexivity.
Defined.



(** ** The first settling call of an executor *)



(** ** The draft class *)

Lemma draft_resolve_settled (this : ref) (v : Value) (s : Draft.DraftState) :
  Draft.settable s = false → Draft.resolve_fn this v s = (Normal tt, s).
Proof. intros Hs. destruct v; simpl; by rewrite Hs. Qed.

(** Single assignment in the draft: in a state that is settled (or that
    carries a thenable), [#resolve], [#reject] and any executor or foreign
    [then] calling them leave the state as it is, and the two settle
    functions return normally. *)
Theorem draft_settled_is_final (this : ref) (s : Draft.DraftState) :
  Draft.settable s = false →
  (∀ v, Draft.resolve_fn this v s = (Normal tt, s))
  ∧ (∀ r, Draft.reject_fn r s = (Normal tt, s))
  ∧ (∀ body, snd (Draft.call_then this body s) = s).
Proof.
  intros Hs. split; [|split].
  - intros v. by apply draft_resolve_settled.
  - intros r. unfold Draft.reject_fn. by rewrite Hs.
  - intros body. by destruct (draft_call_then_settled this body s Hs) as [r ->].
Qed.

Lemma draft_settled_is_final_witness :
  Draft.resolve_fn 0 (VNumber 2) (Draft.DRejected VNull) = (Normal tt, Draft.DRejected VNull).
Proof.
  refine (proj1 (draft_settled_is_final 0 (Draft.DRejected VNull) _) (VNumber 2)).
  reflexivity.
Defined.

Lemma draft_unlocked_mut :
  (∀ v this s, unlocked s → unlocked (snd (Draft.resolve_fn this v s)))
  ∧ (∀ t body, t = ThenCallable body →
       ∀ this s, unlocked s → unlocked (snd (Draft.call_then this body s)))
  ∧ (∀ body this s, unlocked s → unlocked (snd (Draft.call_then this body s))).
Proof.
  assert (Hplainish : ∀ this v s,
            (∀ body, then_member v ≠ ThenCallable body) ∨ typeof v = TyFunction →
            unlocked s → unlocked (snd (Draft.resolve_fn this v s))).
  { intros this v s Hv Hs.
    destruct v as [| | | | | | |id [| | |body]|id t|id [| | |body] ?|id [| | |body] ?];
      simpl; destruct (Draft.settable s); simpl; try done;
      by destruct Hv as [Hv|Hv]; [destruct (Hv body)|]. }
  assert (Hobject : ∀ v t, then_member v = t → typeof v = TyObject →
            (∀ body, t = ThenCallable body →
               ∀ this s, unlocked s → unlocked (snd (Draft.call_then this body s))) →
            ∀ this s, unlocked s → unlocked (snd (Draft.resolve_fn this v s))).
  { intros v t Ht Hty IH this s Hs.
    destruct t as [| | |body];
      try (apply Hplainish; [left; intros body; rewrite Ht; discriminate|done]).
    specialize (IH body eq_refl this s Hs).
    destruct v as [| | | | | | |id t|id t|id t ?|id t ?]; try discriminate Ht;
      try discriminate Hty; simpl in Ht; subst t; simpl;
      (destruct (Draft.settable s); [|done]); by simpl. }
  apply Value_mutind;
    try (intros; apply Hplainish; [left; by intros ?|done]);
    try (intros; apply Hplainish; [by right|done]);
    try (intros; eapply Hobject; by eauto);
    try discriminate; try (by intros; simpl).
  - intros body IH body' [= <-]. done.
  - (* SResolve *) intros v IHv k IHk this s Hs. simpl.
    specialize (IHv this s Hs).
    destruct (Draft.resolve_fn this v s) as [[[]|e] s1]; [|done]. by apply IHk.
  - (* SReject *) intros r _ k IHk this s Hs. simpl.
    unfold Draft.reject_fn. destruct (Draft.settable s); simpl; by apply IHk.
Qed.

(** The draft never records a thenable: from a state without one,
    [#resolve], [#reject], an executor and the constructor lead to states
    without one, so the test [!this.#state.thenable] never fails.  Hence
    the draft does not lock either: after [resolve] with a thenable that
    calls nothing, [reject] still rejects. *)
Theorem draft_never_records_thenable (this : ref) :
  (∀ v s, unlocked s → unlocked (snd (Draft.resolve_fn this v s)))
  ∧ (∀ r s, unlocked s → unlocked (snd (Draft.reject_fn r s)))
  ∧ (∀ body s, unlocked s → unlocked (snd (Draft.call_then this body s)))
  ∧ (∀ executor s, Draft.new_PinkyPromise this executor = Normal s → unlocked s)
  ∧ (∀ id r k,
       snd (Draft.call_then this
              (SResolve (VObject id (ThenCallable SReturn)) (SReject r k))
              (Draft.DPending None))
       = Draft.DRejected r).
Proof.
  destruct draft_unlocked_mut as (Hv & _ & Hb).
  assert (Hrej : ∀ r s, unlocked s → unlocked (snd (Draft.reject_fn r s))).
  { intros r s Hs. unfold Draft.reject_fn. by destruct (Draft.settable s). }
  split; [by intros; apply Hv|]. split; [done|]. split; [by intros; apply Hb|].
  split.
  - intros [v|body] s;
      [unfold Draft.new_PinkyPromise, Draft.construct; by destruct (display v)|].
    unfold Draft.new_PinkyPromise, Draft.construct.
    specialize (Hb body this (Draft.DPending None) ltac:(done)).
    destruct (Draft.call_then this body (Draft.DPending None)) as [[[]|e] s1];
      intros [= <-]; [done|]. by apply Hrej.
  - intros id r k. simpl.
    by destruct (draft_call_then_settled this k (Draft.DRejected r) eq_refl) as [r' ->].
Qed.

Lemma draft_never_records_thenable_witness :
  unlocked (snd (Draft.resolve_fn 0 (VObject 0 (ThenCallable SReturn)) (Draft.DPending None))).
Proof.
  refine (proj1 (draft_never_records_thenable 0)
            (VObject 0 (ThenCallable SReturn)) (Draft.DPending None) _).
  discriminate.
Defined.

Lemma draft_thrown_mut :
  (∀ v this s e s', Draft.resolve_fn this v s = (Thrown e, s') → e ∈ supplied_reasons v)
  ∧ (∀ t body, t = ThenCallable body →
       ∀ this s e s', Draft.call_then this body s = (Thrown e, s') → e ∈ script_reasons body)
  ∧ (∀ body this s e s',
       Draft.call_then this body s = (Thrown e, s') → e ∈ script_reasons body).
Proof.
  assert (Hnone : ∀ this v s e s',
            then_member v = ThenMissing ∨ typeof v = TyFunction →
            Draft.resolve_fn this v s = (Thrown e, s') → False).
  { intros this v s e s' Hv.
    destruct v as [| | | | | | |id t|id t|id t ?|id t ?]; simpl;
      destruct (Draft.settable s); simpl; try done;
      destruct Hv as [Hv|Hv]; try discriminate Hv; simpl in Hv; by subst t. }
  assert (Hobject : ∀ v t, then_member v = t → typeof v = TyObject →
            (∀ body, t = ThenCallable body →
               ∀ this s e s', Draft.call_then this body s = (Thrown e, s')
                              → e ∈ script_reasons body) →
            supplied_reasons v
            = match t with
              | ThenThrows e => [e]
              | ThenCallable body => script_reasons body
              | _ => []
              end →
            ∀ this s e s', Draft.resolve_fn this v s = (Thrown e, s')
                           → e ∈ supplied_reasons v).
  { intros v t Ht Hty IH Hsup this s e s'. rewrite Hsup. subst t.
    destruct v as [| | | | | | |id t|id t|id t ?|id t ?]; try discriminate Hty;
      simpl; (destruct (Draft.settable s); [|done]); try done;
      destruct t as [|e0| |body]; simpl; try done;
      try (intros [= -> _]; by apply list_elem_of_singleton);
      by apply (IH body). }
  apply Value_mutind;
    try (intros; exfalso; eapply Hnone; [|eassumption]; by left);
    try (intros; exfalso; eapply Hnone; [|eassumption]; by right);
    try (intros; eapply Hobject; by eauto);
    try discriminate.
  - intros body IH body' [= <-]. done.
  - (* SThrow *) intros e0 _ this s e s'. simpl. intros [= -> _].
    by apply list_elem_of_singleton.
  - (* SResolve *) intros v IHv k IHk this s e s'. simpl.
    destruct (Draft.resolve_fn this v s) as [[[]|e1] s1] eqn:E.
    + intros H. apply elem_of_app. right. by eapply IHk.
    + intros [= -> _]. apply elem_of_app. left. by eapply IHv.
  - (* SReject *) intros r _ k IHk this s e s'. simpl.
    unfold Draft.reject_fn. destruct (Draft.settable s); simpl;
      intros H; apply elem_of_cons; right; by eapply IHk.
Qed.

(** The exceptions that leave the draft's [#resolve] are those that the
    candidate supplies (a throwing [then] member or [then] body): the
    "chaining cycle" [TypeError] of line 100 is never thrown on its own,
    since an instance of the draft class has no [then]; resolved with
    itself, a pending draft promise is fulfilled with itself.  Thrown
    inside an executor, such an exception becomes the rejection reason. *)
Theorem draft_throws_only_what_is_supplied (this : ref) :
  (∀ v s e s', Draft.resolve_fn this v s = (Thrown e, s') → e ∈ supplied_reasons v)
  ∧ Draft.resolve_fn this (VPromise this) (Draft.DPending None)
    = (Normal tt, Draft.DFulfilled (VPromise this))
  ∧ (∀ id e,
       Draft.resolve_fn this (VObject id (ThenThrows e)) (Draft.DPending None)
       = (Thrown e, Draft.DPending None)
       ∧ Draft.static_resolve this (VObject id (ThenThrows e))
         = Normal (Draft.DRejected e)).
Proof.
  split; [intros v s e s'; apply (proj1 draft_thrown_mut)|]. by split.
Qed.

Lemma draft_throws_only_what_is_supplied_witness :
  VString "boom" ∈ supplied_reasons throwing_getter.
Proof.
  refine (proj1 (draft_throws_only_what_is_supplied 0) throwing_getter
            (Draft.DPending None) (VString "boom") (Draft.DPending None) _).
  reflexivity.
Defined.




(** ** Nested thenables *)




(** ** [#notify] twice *)

(** [#notify] is idempotent: a second call right after the first schedules
    nothing and changes nothing, because the first call emptied both
    sequences (and did nothing at all on a pending promise). *)
Theorem notify_twice_is_notify_once (this : ref) (w : World) :
  (notify this >> notify this) w = notify this w.
Proof.
  unfold bind. rewrite !notify_spec. f_equal.
  assert (Hclear : ∀ h : list Promise,
            alter clear_listeners this (alter clear_listeners this h)
            = alter clear_listeners this h).
  { intros h. rewrite list_alter_alter_eq. by apply list_alter_ext. }
  assert (Hlists : ∀ W, state_of this W ≠ Pending →
            fulfilled_of this (notify_world this W) = []
            ∧ rejected_of this (notify_world this W) = []).
  { intros W HW. rewrite fulfilled_of_promise, rejected_of_promise, promise_of_notify.
    rewrite bool_decide_eq_true_2 by done. unfold clear_if_settled.
    rewrite <- state_of_promise. by destruct (state_of this W). }
  unfold notify_world at 1. rewrite state_of_notify.
  destruct (state_of this w) as [|v|r] eqn:E; [done| |].
  - destruct (Hlists w) as [-> _]; [by rewrite E|]. simpl. rewrite app_nil_r.
    unfold notify_world. rewrite E. simpl. unfold set_heap, set_microtasks; simpl.
    by rewrite Hclear.
  - destruct (Hlists w) as [_ ->]; [by rewrite E|]. simpl. rewrite app_nil_r.
    unfold notify_world. rewrite E. simpl. unfold set_heap, set_microtasks; simpl.
    by rewrite Hclear.
Qed.
